(** * DDL parser / mutator / recompiler of [ddlmod.go]

    A shallow embedding of the Scanner ([Lexer]), the statement parser
    ([parseTableName], [parseTableFields]), the column interpreter
    ([parseColumns]) and the DDL model operations ([compile],
    [renameTable], [addConstraint], [getColumns], [removeColumn]),
    followed by the properties of the design document that concern them.

    Conventions.
    - A Go [string] is a sequence of bytes: [str := list ascii].
    - The Scanner reads one byte at a time and converts it with
      [rune(l.input[l.pos])], so every rune it returns is in [0..255];
      runes are therefore also [ascii], and the sentinel [0] is [zero].
    - Loops are written with a fuel argument; [OutOfFuel] is the outcome of
      a run that needs more iterations than the fuel allows.
    - Go's [strings] functions follow the Go standard library; where they
      leave the ASCII fast path and consult the Unicode tables, the table
      driven fallback is a field of the class [GoUnicode]. *)

From Stdlib Require Import Ascii String List Bool Arith NArith ZArith Lia.
Import ListNotations.

Local Open Scope list_scope.
Local Open Scope bool_scope.

(* ================================================================= *)
(** ** Byte strings *)

Definition str := list ascii.
Definition rune := ascii.

(** Literals are written [bytes "..."]. *)
Definition bytes (s : string) : str := list_ascii_of_string s.

Definition code (c : ascii) : N := N_of_ascii c.

(** The double quote character. *)
Definition doubleQuote : ascii := "034"%char.

(** [utf8.RuneSelf = 0x80]. *)
Definition RuneSelf : N := 128.

Definition isASCIIbyte (c : ascii) : bool := (code c <? RuneSelf)%N.
Definition isASCII (s : str) : bool := forallb isASCIIbyte s.

(** The table [asciiSpace] of package [strings]. *)
Definition asciiSpace (c : ascii) : bool :=
  match code c with
  | 9%N | 10%N | 11%N | 12%N | 13%N | 32%N => true
  | _ => false
  end.

(** [a == b] on strings. *)
Fixpoint str_eqb (a b : str) : bool :=
  match a, b with
  | [], [] => true
  | x :: a', y :: b' => Ascii.eqb x y && str_eqb a' b'
  | _, _ => false
  end.

(** The functions of package [strings] whose result on text that is not
    pure ASCII depends on the Unicode tables. *)
Class GoUnicode := {
  (** [strings.Map(unicode.ToUpper, s)] *)
  unicode_ToUpper : str -> str;
  (** [strings.TrimFunc(s, unicode.IsSpace)] *)
  unicode_TrimFunc : str -> str;
  (** [strings.TrimRightFunc(s, unicode.IsSpace)] *)
  unicode_TrimRightFunc : str -> str;
  (** [strings.FieldsFunc(s, unicode.IsSpace)] *)
  unicode_FieldsFunc : str -> list str;
  (** the [hasUnicode] tail of [strings.EqualFold] *)
  unicode_EqualFold : str -> str -> bool
}.

Module strings.
Section Strings.
Context {U : GoUnicode}.

Fixpoint HasPrefix (s prefix : str) {struct prefix} : bool :=
  match prefix, s with
  | [], _ => true
  | p :: prefix', c :: s' => Ascii.eqb c p && HasPrefix s' prefix'
  | _ :: _, [] => false
  end.

(** [strings.Index]: the offset of the first occurrence of [substr]. *)
Fixpoint Index (s substr : str) : option nat :=
  if HasPrefix s substr then Some 0
  else match s with
       | [] => None
       | _ :: s' => option_map S (Index s' substr)
       end.

Definition Contains (s substr : str) : bool :=
  match Index s substr with Some _ => true | None => false end.

Definition upperByte (c : ascii) : ascii :=
  if ((97 <=? code c) && (code c <=? 122))%N
  then ascii_of_N (code c - 32) else c.

Definition ToUpper (s : str) : str :=
  if isASCII s then map upperByte s else unicode_ToUpper s.

(** [strings.TrimSpace]: the two loops of the ASCII fast path; [stopLoop]
    walks the text backwards, so it receives it reversed. *)
Fixpoint TrimSpace_stop (r : str) : str :=
  match r with
  | [] => []
  | c :: r' =>
      if negb (isASCIIbyte c) then unicode_TrimRightFunc (rev r)
      else if asciiSpace c then TrimSpace_stop r'
      else rev r
  end.

Fixpoint TrimSpace (s : str) : str :=
  match s with
  | [] => []
  | c :: s' =>
      if negb (isASCIIbyte c) then unicode_TrimFunc s
      else if asciiSpace c then TrimSpace s'
      else TrimSpace_stop (rev s)
  end.

(** The ASCII path of [strings.Fields]; [cur] is the field being read. *)
Fixpoint asciiFields (s cur : str) : list str :=
  match s with
  | [] => match cur with [] => [] | _ => [cur] end
  | c :: s' =>
      if asciiSpace c
      then match cur with
           | [] => asciiFields s' []
           | _ => cur :: asciiFields s' []
           end
      else asciiFields s' (cur ++ [c])
  end.

Definition Fields (s : str) : list str :=
  if isASCII s then asciiFields s [] else unicode_FieldsFunc s.

Fixpoint Join (elems : list str) (sep : str) : str :=
  match elems with
  | [] => []
  | [e] => e
  | e :: rest => e ++ sep ++ Join rest sep
  end.

(** [strings.Trim], [strings.TrimRight] with a cutset of ASCII bytes. *)
Definition inCutset (cutset : str) (c : ascii) : bool :=
  existsb (Ascii.eqb c) cutset.

Fixpoint trimLeftASCII (s cutset : str) : str :=
  match s with
  | [] => []
  | c :: s' => if inCutset cutset c then trimLeftASCII s' cutset else s
  end.

Definition TrimRight (s cutset : str) : str :=
  rev (trimLeftASCII (rev s) cutset).

Definition Trim (s cutset : str) : str :=
  trimLeftASCII (TrimRight s cutset) cutset.

(** [strings.Split(s, sep)] for a separator of one byte. *)
Fixpoint Split_from (s : str) (sep : ascii) (cur : str) : list str :=
  match s with
  | [] => [cur]
  | c :: s' =>
      if Ascii.eqb c sep then cur :: Split_from s' sep []
      else Split_from s' sep (cur ++ [c])
  end.

Definition Split (s : str) (sep : ascii) : list str := Split_from s sep [].

(** [strings.SplitN(s, sep, 2)] for a non-empty separator. *)
Definition SplitN2 (s sep : str) : list str :=
  match Index s sep with
  | None => [s]
  | Some i => [firstn i s; skipn (i + length sep) s]
  end.

(** [strings.Replace(s, old, new, 1)] for a non-empty [old]. *)
Definition Replace1 (s old new : str) : str :=
  if str_eqb old new then s
  else match Index s old with
       | None => s
       | Some j => firstn j s ++ new ++ skipn (j + length old) s
       end.

(** [strings.EqualFold]: the byte loop, leaving for the Unicode tail at
    the first position where either byte is not ASCII. *)
Definition foldEqByte (sr tr : ascii) : bool :=
  Ascii.eqb sr tr ||
  (let lo := N.min (code sr) (code tr) in
   let hi := N.max (code sr) (code tr) in
   (65 <=? lo)%N && (lo <=? 90)%N && (hi =? lo + 32)%N).

Fixpoint EqualFold (s t : str) : bool :=
  match s, t with
  | sr :: s', tr :: t' =>
      if negb (isASCIIbyte sr) || negb (isASCIIbyte tr)
      then unicode_EqualFold s t
      else foldEqByte sr tr && EqualFold s' t'
  | [], [] => true
  | _, _ => false
  end.

End Strings.
End strings.

Module strconv.

Definition digit (c : ascii) : option Z :=
  if ((48 <=? code c) && (code c <=? 57))%N
  then Some (Z.of_N (code c) - 48)%Z else None.

Fixpoint digits (s : str) (n : Z) : option Z :=
  match s with
  | [] => Some n
  | c :: s' =>
      match digit c with
      | Some d => digits s' (n * 10 + d)%Z
      | None => None
      end
  end.

(** [strconv.Atoi] with a 64-bit [int]: an optional sign, at least one
    decimal digit, and a value that fits; [None] is the error result. *)
Definition Atoi (s : str) : option Z :=
  let '(neg, body) :=
    match s with
    | c :: s' =>
        if Ascii.eqb c "-" then (true, s')
        else if Ascii.eqb c "+" then (false, s')
        else (false, s)
    | [] => (false, [])
    end in
  match body with
  | [] => None
  | _ =>
      match digits body 0 with
      | Some n =>
          let v := if neg then (- n)%Z else n in
          if ((- 2 ^ 63 <=? v) && (v <=? 2 ^ 63 - 1))%Z then Some v else None
      | None => None
      end
  end.

End strconv.

(* ================================================================= *)
(** ** Results and errors *)

Inductive error : Type :=
| ErrUnterminatedString            (* "unterminated string" *)
| ErrUnterminatedTableDefinition   (* "unterminated table definition" *)
| ErrInvalidDDL                    (* "invalid DDL" *)
| ErrLookupTableName (src head : str).
    (* "failed to look up tablename `%s` from DDL head '%s'" *)

Inductive outcome (A : Type) : Type :=
| Ok (a : A)
| Err (e : error)
| OutOfFuel.

Arguments Ok {A} a.
Arguments Err {A} e.
Arguments OutOfFuel {A}.

Definition bind {A B : Type} (m : outcome A) (k : A -> outcome B) : outcome B :=
  match m with
  | Ok a => k a
  | Err e => Err e
  | OutOfFuel => OutOfFuel
  end.

Notation "x <- m ;; k" := (bind m (fun x => k))
  (at level 61, m at next level, right associativity).
Notation "' p <- m ;; k" := (bind m (fun x => let 'p := x in k))
  (at level 61, p pattern, m at next level, right associativity).

(* ================================================================= *)
(** ** Scanner *)

Record Lexer : Type := mkLexer { input : str; pos : nat }.

Definition newLexer (input : str) : Lexer := mkLexer input 0.

Definition next (l : Lexer) : rune * Lexer :=
  if length (input l) <=? pos l then (zero, l)
  else (nth (pos l) (input l) zero, mkLexer (input l) (S (pos l))).

Definition peek (l : Lexer) : rune :=
  if length (input l) <=? pos l then zero
  else nth (pos l) (input l) zero.

(** [strings.Builder.WriteRune]: a rune below [utf8.RuneSelf] is written
    as one byte, a rune in [0x80..0xFF] as its two-byte UTF-8 encoding. *)
Definition WriteRune (b : str) (r : rune) : str :=
  if isASCIIbyte r then b ++ [r]
  else b ++ [ascii_of_N (N.lor 192 (N.shiftr (code r) 6));
             ascii_of_N (N.lor 128 (N.land (code r) 63))].

Fixpoint parseString_loop (fuel : nat) (quote : rune) (result : str) (l : Lexer)
  : outcome (str * Lexer) :=
  match fuel with
  | O => OutOfFuel
  | S fuel' =>
      let (r, l1) := next l in
      if Ascii.eqb r zero then Err ErrUnterminatedString
      else if Ascii.eqb r quote then Ok (result, l1)
      else parseString_loop fuel' quote (WriteRune result r) l1
  end.

Definition parseString (fuel : nat) (l : Lexer) : outcome (str * Lexer) :=
  let (quote, l1) := next l in
  parseString_loop fuel quote [] l1.

(* ================================================================= *)
(** ** Statement parser *)

(** [for cond(p.lexer.peek()) { p.lexer.next() }] *)
Fixpoint skipWhile (cond : rune -> bool) (fuel : nat) (l : Lexer) : outcome Lexer :=
  match fuel with
  | O => OutOfFuel
  | S fuel' =>
      if cond (peek l) then skipWhile cond fuel' (snd (next l))
      else Ok l
  end.

Definition notQuote (r : rune) : bool :=
  negb (Ascii.eqb r "`") && negb (Ascii.eqb r doubleQuote) &&
  negb (Ascii.eqb r "'").

Definition notOpen (r : rune) : bool := negb (Ascii.eqb r "(").

Definition parseTableName (fuel : nat) (l : Lexer) : outcome (str * Lexer) :=
  l1 <- skipWhile notQuote fuel l ;;
  parseString fuel l1.

(** The body of [for bracketLevel > 0 { ... }].  [bracketLevel] is only
    decremented while positive, so it is a natural number. *)
Fixpoint parseTableFields_loop (fuel : nat) (l : Lexer) (bracketLevel : nat)
    (fields : list str) (currentField : str) {U : GoUnicode}
  : outcome (list str * Lexer) :=
  match fuel with
  | O => OutOfFuel
  | S fuel' =>
      if bracketLevel =? 0 then Ok (fields, l)
      else
        let (r, l1) := next l in
        if Ascii.eqb r zero then Err ErrUnterminatedTableDefinition
        else if Ascii.eqb r "(" then
          parseTableFields_loop fuel' l1 (S bracketLevel) fields
            (WriteRune currentField r)
        else if Ascii.eqb r ")" then
          let bracketLevel := pred bracketLevel in
          if bracketLevel =? 0 then
            Ok (match currentField with
                | [] => fields
                | _ => fields ++ [strings.TrimSpace currentField]
                end, l1)
          else
            parseTableFields_loop fuel' l1 bracketLevel fields
              (WriteRune currentField r)
        else if Ascii.eqb r "," && (bracketLevel =? 1) then
          parseTableFields_loop fuel' l1 bracketLevel
            (fields ++ [strings.TrimSpace currentField]) []
        else
          parseTableFields_loop fuel' l1 bracketLevel fields
            (WriteRune currentField r)
  end.

Definition parseTableFields {U : GoUnicode} (fuel : nat) (l : Lexer)
  : outcome (list str * Lexer) :=
  l1 <- skipWhile notOpen fuel l ;;
  let l2 := snd (next l1) in
  parseTableFields_loop fuel l2 1 [] [].

(* ================================================================= *)
(** ** Column interpreter *)

Module sql.
Record NullString : Type := mkNullString { String_ : str; StringValid : bool }.
Record NullBool : Type := mkNullBool { Bool_ : bool; BoolValid : bool }.
Record NullInt64 : Type := mkNullInt64 { Int64_ : Z; Int64Valid : bool }.
End sql.

(** The fields of [migrator.ColumnType] that the interpreter assigns; all
    others keep their zero value. *)
Record ColumnType : Type := mkColumnType {
  NameValue : sql.NullString;
  DataTypeValue : sql.NullString;
  ColumnTypeValue : sql.NullString;
  PrimaryKeyValue : sql.NullBool;
  UniqueValue : sql.NullBool;
  LengthValue : sql.NullInt64;
  NullableValue : sql.NullBool;
  DefaultValueValue : sql.NullString
}.

Section Interpreter.
Context {U : GoUnicode}.

Import strings.

(** The cutset of [strings.Trim(parts[0], ...)]: backtick, single quote,
    double quote. *)
Definition quoteChars : str := ["`"; "'"; doubleQuote]%char.

(** The three prefix tests that send a field entry to [continue]. *)
Definition isClause (field : str) : bool :=
  HasPrefix (ToUpper field) (bytes "PRIMARY KEY") ||
  HasPrefix (ToUpper field) (bytes "CHECK") ||
  HasPrefix (ToUpper field) (bytes "CONSTRAINT").

(** [DefaultValueValue] after the block "parse the default value". *)
Definition defaultOf (rest : str) : sql.NullString :=
  if Contains (ToUpper rest) (bytes "DEFAULT") then
    match SplitN2 rest (bytes "DEFAULT") with
    | _ :: after :: _ =>
        let defaultValue := TrimSpace after in
        if negb (EqualFold defaultValue (bytes "NULL"))
        then sql.mkNullString (Trim defaultValue (bytes "()")) true
        else sql.mkNullString [] false
    | _ => sql.mkNullString [] false
    end
  else sql.mkNullString [] false.

(** [LengthValue] and [DataTypeValue.String] after the block "parse the
    data type length", from the declared type [dataType]. *)
Definition lengthOf (dataType : str) : sql.NullInt64 * str :=
  if Contains dataType (bytes "(") then
    match Split dataType "(" with
    | base :: inner :: _ =>
        let lengthStr := TrimRight inner (bytes ")") in
        match strconv.Atoi lengthStr with
        | Some length => (sql.mkNullInt64 length true, base)
        | None => (sql.mkNullInt64 0 false, dataType)
        end
    | _ => (sql.mkNullInt64 0 false, dataType)
    end
  else (sql.mkNullInt64 0 false, dataType).

(** One iteration of the loop of [parseColumns]: [None] is [continue]. *)
Definition parseColumn (field : str) : option ColumnType :=
  let field := TrimSpace field in
  if isClause field then None
  else
    match Fields field with
    | name :: dataType :: attrs =>
        let rest := Join attrs (bytes " ") in
        let nullable :=
          negb (Contains (ToUpper rest) (bytes "NOT NULL")) in
        let unique := Contains (ToUpper rest) (bytes "UNIQUE") in
        let primaryKey := Contains (ToUpper rest) (bytes "PRIMARY KEY") in
        let (len, base) := lengthOf dataType in
        Some {| NameValue := sql.mkNullString (Trim name quoteChars) true;
                DataTypeValue := sql.mkNullString base true;
                ColumnTypeValue := sql.mkNullString dataType true;
                PrimaryKeyValue := sql.mkNullBool primaryKey true;
                UniqueValue := sql.mkNullBool unique true;
                LengthValue := len;
                NullableValue := sql.mkNullBool nullable true;
                DefaultValueValue := defaultOf rest |}
    | _ => None
    end.

Fixpoint parseColumns (fields : list str) : list ColumnType :=
  match fields with
  | [] => []
  | field :: fields' =>
      match parseColumn field with
      | Some column => column :: parseColumns fields'
      | None => parseColumns fields'
      end
  end.

(* ================================================================= *)
(** ** DDL model *)

Record ddl : Type := mkDdl {
  head : str;
  fields : list str;
  columns : list ColumnType
}.

Definition createTablePrefix : str := bytes "CREATE TABLE".
Definition createIndexPrefix : str := bytes "CREATE INDEX".

(** [fmt.Sprintf("CREATE TABLE `%s`", tableName)] *)
Definition headOf (tableName : str) : str :=
  bytes "CREATE TABLE `" ++ tableName ++ bytes "`".

Fixpoint parseDDL_loop (fuel : nat) (strs : list str) (result : ddl) : outcome ddl :=
  match strs with
  | [] => Ok result
  | s :: strs' =>
      let parser := newLexer s in
      if HasPrefix (ToUpper s) createTablePrefix then
        '(tableName, parser) <- parseTableName fuel parser ;;
        '(fields, parser) <- parseTableFields fuel parser ;;
        let columns := parseColumns fields in
        parseDDL_loop fuel strs' (mkDdl (headOf tableName) fields columns)
      else if HasPrefix (ToUpper s) createIndexPrefix then
        parseDDL_loop fuel strs' result
      else Err ErrInvalidDDL
  end.

Definition parseDDL (fuel : nat) (strs : list str) : outcome ddl :=
  parseDDL_loop fuel strs (mkDdl [] [] []).

(** [fmt.Sprintf("%s (%s)", d.head, strings.Join(d.fields, ","))] *)
Definition compile (d : ddl) : str :=
  match fields d with
  | [] => head d
  | _ => head d ++ bytes " (" ++ Join (fields d) (bytes ",") ++ bytes ")"
  end.

Definition backquoted (name : str) : str := bytes "`" ++ name ++ bytes "`".

(** The receiver after the call, and the returned error ([None] is [nil]). *)
Definition renameTable (d : ddl) (dst src : str) : ddl * option error :=
  let oldHead := head d in
  let d := mkDdl (Replace1 (head d) (backquoted src) (backquoted dst))
                 (fields d) (columns d) in
  if str_eqb oldHead (head d)
  then (d, Some (ErrLookupTableName src (head d)))
  else (d, None).

Definition isConstraint (name field : str) : bool :=
  HasPrefix (ToUpper field) (bytes "CONSTRAINT") && Contains field name.

(** The field list after [addConstraint]: [seen] is [d.fields[:i]]. *)
Fixpoint addConstraint_loop (seen rest : list str) (name sql : str) : list str :=
  match rest with
  | [] => seen ++ [sql]
  | field :: rest' =>
      if isConstraint name field then seen ++ sql :: rest'
      else addConstraint_loop (seen ++ [field]) rest' name sql
  end.

Definition addConstraint (d : ddl) (name sql : str) : ddl :=
  mkDdl (head d) (addConstraint_loop [] (fields d) name sql) (columns d).

Definition getColumn (field : str) : option str :=
  let field := TrimSpace field in
  if isClause field ||
     Contains (ToUpper field) (bytes "GENERATED ALWAYS AS")
  then None
  else match Fields field with
       | part0 :: _ => Some (bytes "`" ++ Trim part0 quoteChars ++ bytes "`")
       | [] => None
       end.

Fixpoint getColumns_loop (fields : list str) : list str :=
  match fields with
  | [] => []
  | field :: fields' =>
      match getColumn field with
      | Some c => c :: getColumns_loop fields'
      | None => getColumns_loop fields'
      end
  end.

Definition getColumns (d : ddl) : list str := getColumns_loop (fields d).

Definition isColumn (name field : str) : bool :=
  match Fields field with
  | part0 :: _ => str_eqb (Trim part0 quoteChars) name
  | [] => false
  end.

(** The field list after [removeColumn] and the returned flag. *)
Fixpoint removeColumn_loop (seen rest : list str) (name : str) : list str * bool :=
  match rest with
  | [] => (seen, false)
  | field :: rest' =>
      if isColumn name field then (seen ++ rest', true)
      else removeColumn_loop (seen ++ [field]) rest' name
  end.

Definition removeColumn (d : ddl) (name : str) : ddl * bool :=
  let (fs, removed) := removeColumn_loop [] (fields d) name in
  (mkDdl (head d) fs (columns d), removed).

End Interpreter.

(* ================================================================= *)
(** ** Vocabulary of the properties *)

(** The text the Scanner has not read yet, and the Scanner [n] characters
    further. *)
Definition remaining (l : Lexer) : str := skipn (pos l) (input l).

Definition advance (l : Lexer) (n : nat) : Lexer := mkLexer (input l) (pos l + n).

Section Vocabulary.
Context {U : GoUnicode}.
Import strings.

(** [field] is a [CONSTRAINT] clause whose text contains [name]. *)
Definition ConstraintNamed (name field : str) : Prop :=
  HasPrefix (ToUpper field) (bytes "CONSTRAINT") = true /\
  Contains field name = true.

(** The first whitespace-delimited token of [field], with the quote
    characters around it stripped, is [name]. *)
Definition NamesColumn (name field : str) : Prop :=
  exists part0 parts,
    Fields field = part0 :: parts /\ Trim part0 quoteChars = name.

End Vocabulary.

(** [pre ++ sub ++ post] is [s], split at the first occurrence of [sub]. *)
Definition FirstOccurrence (s sub pre post : str) : Prop :=
  s = pre ++ sub ++ post /\
  forall j, j < length pre -> strings.HasPrefix (skipn j s) sub = false.

(** The text of [s] in front of its first [sep], all of [s] when there is
    none. *)
Fixpoint upTo (sep : ascii) (s : str) : str :=
  match s with
  | [] => []
  | c :: s' => if Ascii.eqb c sep then [] else c :: upTo sep s'
  end.

(** "Strip one layer of surrounding parentheses", as the design document
    words the treatment of a default expression. *)
Definition stripOneLayer (s : str) : str :=
  match s with
  | "("%char :: s' =>
      match rev s' with
      | ")"%char :: r => rev r
      | _ => s
      end
  | _ => s
  end.

(** The balance of a text: its opening minus its closing parentheses. *)
Definition delta (c : ascii) : Z :=
  if Ascii.eqb c "(" then 1 else if Ascii.eqb c ")" then (-1) else 0.

Fixpoint depth (s : str) : Z :=
  match s with
  | [] => 0
  | c :: s' => delta c + depth s'
  end.

(** Read with the nesting counter at [level], the counter stays positive
    through all of [s]. *)
Definition StaysOpen (level : Z) (s : str) : Prop :=
  forall n, (0 < level + depth (firstn n s))%Z.

Fixpoint staysOpen (level : Z) (s : str) : bool :=
  (0 <? level)%Z &&
  match s with
  | [] => true
  | c :: s' => staysOpen (level + delta c) s'
  end.

(** The nesting opened by the parenthesis of the table body never returns
    to zero in [body]. *)
Definition NeverCloses (body : str) : Prop := StaysOpen 1 body.

(** The table body: what follows the first opening parenthesis. *)
Fixpoint bodyOf (s : str) : str :=
  match s with
  | [] => []
  | c :: s' => if Ascii.eqb c "(" then s' else bodyOf s'
  end.

(** What a [strings.Builder] that holds [b] holds after the runes of [f]
    have been written to it. *)
Definition written (f b : str) : str := fold_left WriteRune f b.

(** The nesting depth at the end of [f] when [f] is read inside a field at
    depth [d]; [None] when [f] holds a sentinel, a comma at depth 0 (a
    field separator) or a parenthesis that closes depth 0 (the end of the
    table body). *)
Fixpoint scan (d : nat) (f : str) : option nat :=
  match f with
  | [] => Some d
  | c :: f' =>
      if Ascii.eqb c zero then None
      else if Ascii.eqb c "(" then scan (S d) f'
      else if Ascii.eqb c ")" then
        match d with O => None | S d' => scan d' f' end
      else if Ascii.eqb c "," then
        match d with O => None | S _ => scan d f' end
      else scan d f'
  end.

(** A text that the statement parser reads as one field entry. *)
Definition Entry (f : str) : Prop := scan 0 f = Some 0.

(** The fields that a table body made of the entries [es], separated by
    commas, is split into: each entry as written and trimmed, the last one
    dropped when nothing was written for it. *)
Fixpoint entriesFields {U : GoUnicode} (es : list str) : list str :=
  match es with
  | [] => []
  | [e] =>
      match written e [] with
      | [] => []
      | w => [strings.TrimSpace w]
      end
  | e :: es' => strings.TrimSpace (written e []) :: entriesFields es'
  end.

(** A field as the statement parser stores it when it reads ASCII text:
    one entry, trimmed. *)
Definition StoredField {U : GoUnicode} (f : str) : Prop :=
  Entry f /\ isASCII f = true /\ strings.TrimSpace f = f.


(** An instance of the Unicode tables under which every byte above 0x7F is
    an ordinary character; the examples below are pure ASCII and never
    reach it. *)
Definition bytewise : GoUnicode :=
  {| unicode_ToUpper := map strings.upperByte;
     unicode_TrimFunc := fun s => s;
     unicode_TrimRightFunc := fun s => s;
     unicode_FieldsFunc := fun s => [s];
     unicode_EqualFold := fun _ _ => false |}.

(** Sample models and statements on which the properties are evaluated. *)
Definition constraint_sample : ddl :=
  mkDdl (bytes "CREATE TABLE `users`")
    [bytes "`name` TEXT"; bytes "CONSTRAINT `uq_name` UNIQUE(`name`)"] [].

Definition columns_sample : ddl :=
  mkDdl (bytes "CREATE TABLE `users`")
    [bytes "`id` INTEGER"; bytes "`name` TEXT"] [].

Definition single_token_sample : ddl :=
  mkDdl (bytes "CREATE TABLE `t`") [bytes "`a` INTEGER"; bytes "`b`"] [].

Definition nested_statement : str :=
  bytes "CREATE TABLE IF NOT EXISTS `t` ( `a` DECIMAL(10,2) , `b` TEXT CHECK (`b` <> '') , FOREIGN KEY (`a`, `b`) REFERENCES `u` (`x`, `y`) )".

Definition nested_fields : list str :=
  [bytes "`a` DECIMAL(10,2)"; bytes "`b` TEXT CHECK (`b` <> '')";
   bytes "FOREIGN KEY (`a`, `b`) REFERENCES `u` (`x`, `y`)"].




(** Refutes, by evaluation, that a concrete field is a named constraint or
    names a column. *)
Ltac refute_by_evaluation :=
  match goal with
  | |- ~ ConstraintNamed _ _ =>
      let H := fresh in
      intros [H _]; vm_compute in H; discriminate H
  | |- ~ ConstraintNamed _ _ =>
      let H := fresh in
      intros [_ H]; vm_compute in H; discriminate H
  | |- ~ NamesColumn _ _ =>
      let p := fresh in let ps := fresh in
      let H1 := fresh in let H2 := fresh in
      intros (p & ps & H1 & H2); vm_compute in H1;
      inversion H1; subst; vm_compute in H2; discriminate H2
  end.

(* ================================================================= *)
(** ** The remaining operations of the Scanner and of the model *)

(** [unicode.IsLetter] and [unicode.IsDigit] on the runes the Scanner
    yields, which are all in Latin-1: the letters are [A-Z], [a-z], U+00AA,
    U+00B5, U+00BA, U+00C0..U+00D6, U+00D8..U+00F6 and U+00F8..U+00FF; the
    digits are [0-9]. *)
Definition IsLetter (r : rune) : bool :=
  let n := code r in
  ((65 <=? n) && (n <=? 90) || (97 <=? n) && (n <=? 122) ||
   (n =? 170) || (n =? 181) || (n =? 186) ||
   (192 <=? n) && (n <=? 214) || (216 <=? n) && (n <=? 246) ||
   (248 <=? n) && (n <=? 255))%N.

Definition IsDigit (r : rune) : bool := ((48 <=? code r) && (code r <=? 57))%N.

Fixpoint parseIdentifier_loop (fuel : nat) (result : str) (l : Lexer)
  : outcome (str * Lexer) :=
  match fuel with
  | O => OutOfFuel
  | S fuel' =>
      let r := peek l in
      if negb (IsLetter r) && negb (IsDigit r) && negb (Ascii.eqb r "_")
      then Ok (result, l)
      else
        let (r', l1) := next l in
        parseIdentifier_loop fuel' (WriteRune result r') l1
  end.

Definition parseIdentifier (fuel : nat) (l : Lexer) : outcome (str * Lexer) :=
  parseIdentifier_loop fuel [] l.

(** The test of the loop of [parseIdentifier], negated: the runes it
    consumes. *)
Definition identRune (r : rune) : bool :=
  IsLetter r || IsDigit r || Ascii.eqb r "_".

(** The longest prefix of [s] whose characters all satisfy [p]. *)
Fixpoint takeWhile (p : ascii -> bool) (s : str) : str :=
  match s with
  | [] => []
  | c :: s' => if p c then c :: takeWhile p s' else []
  end.

Section MoreEdits.
Context {U : GoUnicode}.

(** The field list after [removeConstraint] and the returned flag. *)
Fixpoint removeConstraint_loop (seen rest : list str) (name : str)
  : list str * bool :=
  match rest with
  | [] => (seen, false)
  | field :: rest' =>
      if isConstraint name field then (seen ++ rest', true)
      else removeConstraint_loop (seen ++ [field]) rest' name
  end.

Definition removeConstraint (d : ddl) (name : str) : ddl * bool :=
  let (fs, removed) := removeConstraint_loop [] (fields d) name in
  (mkDdl (head d) fs (columns d), removed).

Fixpoint hasConstraint_loop (fields : list str) (name : str) : bool :=
  match fields with
  | [] => false
  | field :: fields' =>
      if isConstraint name field then true
      else hasConstraint_loop fields' name
  end.

Definition hasConstraint (d : ddl) (name : str) : bool :=
  hasConstraint_loop (fields d) name.

End MoreEdits.

(** The Scanner [l'] is the Scanner [l] later on: the same input, a cursor
    that has not moved back, and that is still inside the input or at its
    end if it was. *)
Definition Later (l l' : Lexer) : Prop :=
  input l' = input l /\
  pos l <= pos l' /\
  (pos l <= length (input l) -> pos l' <= length (input l)).

(** A statement that the driver skips: it does not start with
    [CREATE TABLE] and starts with [CREATE INDEX], in any letter case. *)
Definition isIndexStatement {U : GoUnicode} (s : str) : bool :=
  negb (strings.HasPrefix (strings.ToUpper s) createTablePrefix) &&
  strings.HasPrefix (strings.ToUpper s) createIndexPrefix.

(* ================================================================= *)
(** ** The model in memory: slices over shared backing arrays

    [d.fields] is a Go slice: a view of the first [len] elements of a
    backing array that other slices may share.  [d.fields[i] = sql]
    writes into the backing array; [append] writes into it while there is
    capacity left and moves to a new array otherwise;
    [append(d.fields[:i], d.fields[i+1:]...)] shifts the tail of the
    backing array one place down.  Every [d.fields] of this file starts at
    the beginning of its backing array. *)

Record slice : Type := mkSlice { arr : nat; len : nat }.

(** The backing arrays, by number. *)
Definition heap := list (list str).

Definition backing (h : heap) (s : slice) : list str := nth (arr s) h [].

Definition cap (h : heap) (s : slice) : nat := length (backing h s).

(** The elements of the slice, [s[0:len(s)]]. *)
Definition elems (h : heap) (s : slice) : list str :=
  firstn (len s) (backing h s).

(** [l[i] = x]. *)
Fixpoint store {A : Type} (l : list A) (i : nat) (x : A) : list A :=
  match l, i with
  | [], _ => []
  | _ :: t, O => x :: t
  | y :: t, S i' => y :: store t i' x
  end.

(** A model value: the header and the descriptors are values, the fields
    are a slice.  (The descriptors are a slice too, which no operation of
    the file writes to.) *)
Record ddlVar : Type := mkDdlVar {
  vhead : str;
  vfields : slice;
  vcolumns : list ColumnType
}.

(** The model that a model value stands for in a given memory. *)
Definition model_of (h : heap) (d : ddlVar) : ddl :=
  mkDdl (vhead d) (elems h (vfields d)) (vcolumns d).

(** The slice lies in the memory. *)
Definition wf (h : heap) (d : ddlVar) : Prop :=
  arr (vfields d) < length h /\ len (vfields d) <= cap h (vfields d).

(** The index at which a [for i, field := range] loop that started at
    index [i] first finds a field that satisfies [p]. *)
Fixpoint firstIndex (p : str -> bool) (fs : list str) (i : nat) : option nat :=
  match fs with
  | [] => None
  | f :: fs' => if p f then Some i else firstIndex p fs' (S i)
  end.

Section InMemory.
Context {U : GoUnicode}.

(** The capacity that [append] adds beyond the length it needs when it
    allocates; the language leaves it to the runtime. *)
Variable spare : nat -> nat.

(** [append(s, x)] *)
Definition appendOne (h : heap) (s : slice) (x : str) : heap * slice :=
  if len s <? cap h s
  then (store h (arr s) (store (backing h s) (len s) x),
        mkSlice (arr s) (S (len s)))
  else (h ++ [elems h s ++ x :: repeat [] (spare (S (len s)))],
        mkSlice (length h) (S (len s))).

(** [append(s[:i], s[i+1:]...)] *)
Definition deleteAt (h : heap) (s : slice) (i : nat) : heap * slice :=
  let a := backing h s in
  (store h (arr s)
     (firstn i a ++ skipn (S i) (firstn (len s) a) ++ skipn (len s - 1) a),
   mkSlice (arr s) (len s - 1)).

Definition addConstraintV (h : heap) (d : ddlVar) (name sql : str)
  : heap * ddlVar :=
  match firstIndex (isConstraint name) (elems h (vfields d)) 0 with
  | Some i =>
      (store h (arr (vfields d)) (store (backing h (vfields d)) i sql), d)
  | None =>
      let (h', s') := appendOne h (vfields d) sql in
      (h', mkDdlVar (vhead d) s' (vcolumns d))
  end.

Definition removeConstraintV (h : heap) (d : ddlVar) (name : str)
  : heap * ddlVar * bool :=
  match firstIndex (isConstraint name) (elems h (vfields d)) 0 with
  | Some i =>
      let (h', s') := deleteAt h (vfields d) i in
      (h', mkDdlVar (vhead d) s' (vcolumns d), true)
  | None => (h, d, false)
  end.

Definition removeColumnV (h : heap) (d : ddlVar) (name : str)
  : heap * ddlVar * bool :=
  match firstIndex (isColumn name) (elems h (vfields d)) 0 with
  | Some i =>
      let (h', s') := deleteAt h (vfields d) i in
      (h', mkDdlVar (vhead d) s' (vcolumns d), true)
  | None => (h, d, false)
  end.

(** [clone]: [make([]string, len(d.fields))] is a new backing array of
    exactly that length, which [copy] fills. *)
Definition cloneV (h : heap) (d : ddlVar) : heap * ddlVar :=
  (h ++ [elems h (vfields d)],
   mkDdlVar (vhead d) (mkSlice (length h) (len (vfields d))) (vcolumns d)).

End InMemory.

(** The edits of a model, and a series of them applied in turn, to a
    model and to a model value in memory. *)
Inductive edit : Type :=
| AddConstraint (name sql : str)
| RemoveConstraint (name : str)
| RemoveColumn (name : str)
| RenameTable (dst src : str).

Section Edits.
Context {U : GoUnicode}.
Variable spare : nat -> nat.

Definition applyEdit (d : ddl) (e : edit) : ddl :=
  match e with
  | AddConstraint name sql => addConstraint d name sql
  | RemoveConstraint name => fst (removeConstraint d name)
  | RemoveColumn name => fst (removeColumn d name)
  | RenameTable dst src => fst (renameTable d dst src)
  end.

Definition applyEditV (h : heap) (d : ddlVar) (e : edit) : heap * ddlVar :=
  match e with
  | AddConstraint name sql => addConstraintV spare h d name sql
  | RemoveConstraint name => fst (removeConstraintV h d name)
  | RemoveColumn name => fst (removeColumnV h d name)
  | RenameTable dst src =>
      (h, mkDdlVar (head (fst (renameTable (model_of h d) dst src)))
            (vfields d) (vcolumns d))
  end.

Definition applyEdits (d : ddl) (es : list edit) : ddl :=
  fold_left applyEdit es d.

Fixpoint applyEditsV (h : heap) (d : ddlVar) (es : list edit) : heap * ddlVar :=
  match es with
  | [] => (h, d)
  | e :: es' => let (h', d') := applyEditV h d e in applyEditsV h' d' es'
  end.

End Edits.

(** Two model values that lie in the memory and share no backing array. *)
Definition Separate (h : heap) (d c : ddlVar) : Prop :=
  wf h d /\ wf h c /\ arr (vfields d) <> arr (vfields c).

(** What an edit of [d], which leaves the memory [h'] and the model value
    [d'], may have touched: [d'] lies in [h']; no backing array has
    disappeared; every backing array of [h] other than the one of [d] is
    as it was; and [d'] uses the backing array of [d] or one that [h] did
    not have. *)
Definition Footprint (h : heap) (d : ddlVar) (h' : heap) (d' : ddlVar) : Prop :=
  wf h' d' /\
  length h <= length h' /\
  (forall id, id < length h -> id <> arr (vfields d) ->
              nth id h' [] = nth id h []) /\
  (arr (vfields d') = arr (vfields d) \/ length h <= arr (vfields d')).

(** Samples for the operations in memory: one backing array of four
    places that holds three fields, a model value over it, a series of
    edits, and a runtime that allocates no spare capacity. *)
Definition memory_sample : heap :=
  [[bytes "`id` INTEGER"; bytes "`name` TEXT";
    bytes "CONSTRAINT `uq_name` UNIQUE(`name`)"; []]].

Definition value_sample : ddlVar :=
  mkDdlVar (bytes "CREATE TABLE `users`") (mkSlice 0 3) [].

Definition edits_sample : list edit :=
  [RemoveColumn (bytes "id");
   AddConstraint (bytes "uq_id") (bytes "CONSTRAINT `uq_id` UNIQUE(`id`)");
   AddConstraint (bytes "uq_id") (bytes "CONSTRAINT `uq_id` UNIQUE(`id`,`name`)");
   AddConstraint (bytes "ck") (bytes "CONSTRAINT `ck` CHECK (`name` <> '')");
   RemoveConstraint (bytes "uq_name");
   RenameTable (bytes "accounts") (bytes "users")].

Definition no_spare : nat -> nat := fun _ => 0.

Definition two_tables : list str :=
  [bytes "CREATE TABLE `a` (`x` INTEGER)";
   bytes "CREATE INDEX `i` ON `a`(`x`)";
   bytes "CREATE TABLE `b` (`y` TEXT, `z` TEXT)"].

(* ################################################################# *)
(** * Properties *)

(* ================================================================= *)
(** ** Equality of strings *)

Lemma str_eqb_eq : forall a b, str_eqb a b = true <-> a = b.
Proof.
  induction a as [|x a IH]; intros [|y b]; simpl; split; try congruence.
  - rewrite andb_true_iff, Ascii.eqb_eq, IH. now intros [-> ->].
  - intros H. inversion H; subst. rewrite Ascii.eqb_refl. now apply IH.
Qed.

Lemma str_eqb_neq a b : str_eqb a b = false <-> a <> b.
Proof.
  rewrite <- str_eqb_eq. destruct (str_eqb a b); split; congruence.
Qed.

(* ================================================================= *)
(** ** The Scanner seen through the text that is left to read *)

Lemma skipn_cons_inv (A : Type) (d : A) : forall n (s : list A) c r,
  skipn n s = c :: r -> n < length s /\ nth n s d = c /\ skipn (S n) s = r.
Proof.
  induction n as [|n IH]; intros [|x s] c r H; simpl in *; try discriminate.
  - inversion H; subst. repeat split; lia.
  - destruct (IH _ _ _ H) as (Hlt & Hnth & Hskip).
    repeat split; [lia | assumption | assumption].
Qed.

Lemma skipn_nil_inv (A : Type) : forall n (s : list A),
  skipn n s = [] -> length s <= n.
Proof.
  induction n as [|n IH]; intros [|x s] H; simpl in *; try discriminate; try lia.
  apply IH in H. lia.
Qed.

Lemma advance_0 l : advance l 0 = l.
Proof. destruct l; unfold advance; simpl. now rewrite Nat.add_0_r. Qed.

Lemma advance_advance l n m : advance (advance l n) m = advance l (n + m).
Proof. unfold advance; simpl. now rewrite Nat.add_assoc. Qed.

Lemma remaining_advance l n : remaining (advance l n) = skipn n (remaining l).
Proof.
  unfold remaining, advance; simpl.
  now rewrite Nat.add_comm, skipn_skipn.
Qed.

Lemma input_advance l n : input (advance l n) = input l.
Proof. reflexivity. Qed.

Lemma next_nil l : remaining l = [] -> next l = (zero, l).
Proof.
  intros H. apply skipn_nil_inv in H. unfold next.
  destruct (Nat.leb_spec (length (input l)) (pos l)); [reflexivity | lia].
Qed.

Lemma next_cons l c r :
  remaining l = c :: r -> next l = (c, advance l 1) /\ remaining (advance l 1) = r.
Proof.
  intros H. unfold remaining in H.
  destruct (skipn_cons_inv _ zero _ _ _ _ H) as (Hlt & Hnth & Hskip).
  unfold next, advance, remaining; simpl.
  destruct (Nat.leb_spec (length (input l)) (pos l)); [lia|].
  rewrite Hnth, Nat.add_1_r. split; [reflexivity | assumption].
Qed.

Lemma peek_nil l : remaining l = [] -> peek l = zero.
Proof.
  intros H. apply skipn_nil_inv in H. unfold peek.
  destruct (Nat.leb_spec (length (input l)) (pos l)); [reflexivity | lia].
Qed.

Lemma peek_cons l c r : remaining l = c :: r -> peek l = c.
Proof.
  intros H. unfold remaining in H.
  destruct (skipn_cons_inv _ zero _ _ _ _ H) as (Hlt & Hnth & _).
  unfold peek.
  destruct (Nat.leb_spec (length (input l)) (pos l)); [lia | assumption].
Qed.

(** The skip loop never leaves a text on which its condition always holds:
    at the end of the input [peek] yields the sentinel, on which the
    condition holds too, and [next] does not move. *)
Lemma skipWhile_stuck cond :
  cond zero = true ->
  forall fuel l,
    forallb cond (remaining l) = true ->
    skipWhile cond fuel l = OutOfFuel.
Proof.
  intros Hz. induction fuel as [|fuel IH]; intros l Hall; [reflexivity|].
  simpl. destruct (remaining l) as [|c r] eqn:Hrem.
  - rewrite (peek_nil _ Hrem), Hz, (next_nil _ Hrem). simpl.
    apply IH. now rewrite Hrem.
  - simpl in Hall. apply andb_prop in Hall as [Hc Hr].
    rewrite (peek_cons _ _ _ Hrem), Hc.
    destruct (next_cons _ _ _ Hrem) as [-> Hrem']. simpl.
    apply IH. now rewrite Hrem'.
Qed.

(** The skip loop stops at the first character on which its condition
    fails. *)
Lemma skipWhile_found cond : forall a l c r fuel,
  remaining l = a ++ c :: r ->
  forallb cond a = true ->
  cond c = false ->
  length a < fuel ->
  skipWhile cond fuel l = Ok (advance l (length a)).
Proof.
  induction a as [|x a IH]; intros l c r fuel Hrem Ha Hc Hfuel;
    (destruct fuel as [|fuel]; [lia|]); simpl in *.
  - rewrite (peek_cons _ _ _ Hrem), Hc. now rewrite advance_0.
  - apply andb_prop in Ha as [Hx Ha].
    rewrite (peek_cons _ _ _ Hrem), Hx.
    destruct (next_cons _ _ _ Hrem) as [-> Hrem']. simpl.
    rewrite (IH (advance l 1) c r fuel Hrem' Ha Hc) by lia.
    now rewrite advance_advance.
Qed.

Lemma skipWhile_Ok_inv cond : forall fuel l l',
  skipWhile cond fuel l = Ok l' ->
  cond (peek l') = false /\ input l' = input l /\ pos l <= pos l'.
Proof.
  induction fuel as [|fuel IH]; intros l l' H; simpl in H; [discriminate|].
  destruct (cond (peek l)) eqn:Hc.
  - apply IH in H as (H1 & H2 & H3). repeat split; auto.
    + rewrite H2. unfold next. destruct (_ <=? _); reflexivity.
    + etransitivity; [|exact H3]. unfold next.
      destruct (_ <=? _); simpl; lia.
  - inversion H; subst. repeat split; auto.
Qed.

(* ================================================================= *)
(** ** Termination of the skip phases *)

(** C3 (refuted on the code).  The skip phase of [parseTableName] has no
    guard for the end-of-input sentinel: on a text that holds no backtick,
    double quote or single quote it runs out of any amount of fuel, and so
    does the skip phase of [parseTableFields] on a text that holds no
    opening parenthesis.  A [CREATE TABLE] statement with an unquoted
    table name and column names therefore never returns from [parseDDL]. *)
Theorem skip_phase_never_returns {U : GoUnicode} :
  (forall l, forallb notQuote (remaining l) = true ->
     forall fuel, parseTableName fuel l = OutOfFuel) /\
  (forall l, forallb notOpen (remaining l) = true ->
     forall fuel, parseTableFields fuel l = OutOfFuel) /\
  (forall s, strings.HasPrefix (strings.ToUpper s) createTablePrefix = true ->
     forallb notQuote s = true ->
     forall fuel, parseDDL fuel [s] = OutOfFuel).
Proof.
  assert (Hname : forall l, forallb notQuote (remaining l) = true ->
            forall fuel, parseTableName fuel l = OutOfFuel).
  { intros l H fuel. unfold parseTableName.
    now rewrite (skipWhile_stuck notQuote eq_refl fuel l H). }
  split; [exact Hname|]. split.
  - intros l H fuel. unfold parseTableFields.
    now rewrite (skipWhile_stuck notOpen eq_refl fuel l H).
  - intros s Hpre Hq fuel. unfold parseDDL. cbn [parseDDL_loop]. rewrite Hpre.
    now rewrite (Hname (newLexer s) Hq fuel).
Qed.

Lemma skip_phase_never_returns_witness :
  parseTableName 1000
    (newLexer (bytes "CREATE TABLE users (id INTEGER)")) = OutOfFuel /\
  parseTableFields (U := bytewise) 1000
    (newLexer (bytes "CREATE TABLE `users`")) = OutOfFuel /\
  parseDDL (U := bytewise) 1000
    [bytes "CREATE TABLE users (id INTEGER)"] = OutOfFuel.
Proof.
  destruct (skip_phase_never_returns (U := bytewise)) as (H1 & H2 & H3).
  split; [|split].
  - apply H1. reflexivity.
  - apply H2. reflexivity.
  - apply H3; reflexivity.
Defined.

(* ================================================================= *)
(** ** Edits of the field list *)

Section FieldEdits.
Context {U : GoUnicode}.
Import strings.

Lemma isConstraint_spec name field :
  isConstraint name field = true <-> ConstraintNamed name field.
Proof. unfold isConstraint, ConstraintNamed. now rewrite andb_true_iff. Qed.

Lemma isColumn_spec name field :
  isColumn name field = true <-> NamesColumn name field.
Proof.
  unfold isColumn, NamesColumn. split.
  - destruct (Fields field) as [|part0 parts]; [discriminate|].
    intros E. apply str_eqb_eq in E. now exists part0, parts.
  - intros (part0 & parts & -> & E). now apply str_eqb_eq.
Qed.

Lemma not_true_false (b : bool) : ~ b = true -> b = false.
Proof. now destruct b. Qed.

Lemma addConstraint_loop_found name sql : forall before seen field after,
  Forall (fun f => ~ ConstraintNamed name f) before ->
  ConstraintNamed name field ->
  addConstraint_loop seen (before ++ field :: after) name sql
  = seen ++ before ++ sql :: after.
Proof.
  induction before as [|f before IH]; intros seen field after Hb Hf; simpl.
  - apply isConstraint_spec in Hf. now rewrite Hf.
  - inversion Hb as [|? ? Hnf Hb']; subst.
    rewrite <- isConstraint_spec in Hnf. apply not_true_false in Hnf.
    rewrite Hnf, IH by assumption. now rewrite <- app_assoc.
Qed.

Lemma addConstraint_loop_missing name sql : forall rest seen,
  Forall (fun f => ~ ConstraintNamed name f) rest ->
  addConstraint_loop seen rest name sql = seen ++ rest ++ [sql].
Proof.
  induction rest as [|f rest IH]; intros seen Hr; simpl; [reflexivity|].
  inversion Hr as [|? ? Hnf Hr']; subst.
  rewrite <- isConstraint_spec in Hnf. apply not_true_false in Hnf.
  rewrite Hnf, IH by assumption. now rewrite <- app_assoc.
Qed.

(** C8.  [addConstraint] is an upsert: the first [CONSTRAINT] entry whose
    text contains [name] is replaced by [sql] and nothing is added; when no
    entry matches, [sql] is appended at the end; all other entries keep
    their text and their place. *)
Theorem addConstraint_upsert (d : ddl) (name sql : str) :
  (forall before field after,
     fields d = before ++ field :: after ->
     Forall (fun f => ~ ConstraintNamed name f) before ->
     ConstraintNamed name field ->
     fields (addConstraint d name sql) = before ++ sql :: after) /\
  (Forall (fun f => ~ ConstraintNamed name f) (fields d) ->
     fields (addConstraint d name sql) = fields d ++ [sql]) /\
  head (addConstraint d name sql) = head d.
Proof.
  split; [|split]; [| |reflexivity].
  - intros before field after E Hb Hf. simpl. rewrite E.
    now rewrite addConstraint_loop_found.
  - intros Hall. simpl. now rewrite addConstraint_loop_missing.
Qed.

Lemma removeColumn_loop_found name : forall before seen field after,
  Forall (fun f => ~ NamesColumn name f) before ->
  NamesColumn name field ->
  removeColumn_loop seen (before ++ field :: after) name
  = (seen ++ before ++ after, true).
Proof.
  induction before as [|f before IH]; intros seen field after Hb Hf; simpl.
  - apply isColumn_spec in Hf. now rewrite Hf.
  - inversion Hb as [|? ? Hnf Hb']; subst.
    rewrite <- isColumn_spec in Hnf. apply not_true_false in Hnf.
    rewrite Hnf, IH by assumption. now rewrite <- app_assoc.
Qed.

Lemma removeColumn_loop_missing name : forall rest seen,
  Forall (fun f => ~ NamesColumn name f) rest ->
  removeColumn_loop seen rest name = (seen ++ rest, false).
Proof.
  induction rest as [|f rest IH]; intros seen Hr; simpl.
  - now rewrite app_nil_r.
  - inversion Hr as [|? ? Hnf Hr']; subst.
    rewrite <- isColumn_spec in Hnf. apply not_true_false in Hnf.
    rewrite Hnf, IH by assumption. now rewrite <- app_assoc.
Qed.

(** C9.  [removeColumn] removes the first field whose name token is [name]
    and returns [true]; when no field has that name token it returns
    [false] and the model, hence its field list, is the one it was given. *)
Theorem removeColumn_first_match (d : ddl) (name : str) :
  (forall before field after,
     fields d = before ++ field :: after ->
     Forall (fun f => ~ NamesColumn name f) before ->
     NamesColumn name field ->
     removeColumn d name
     = (mkDdl (head d) (before ++ after) (columns d), true)) /\
  (Forall (fun f => ~ NamesColumn name f) (fields d) ->
     removeColumn d name = (d, false)).
Proof.
  split.
  - intros before field after E Hb Hf. unfold removeColumn. rewrite E.
    now rewrite removeColumn_loop_found.
  - intros Hall. unfold removeColumn.
    rewrite removeColumn_loop_missing by assumption. now destruct d.
Qed.

Lemma getColumns_loop_app : forall a b,
  getColumns_loop (a ++ b) = getColumns_loop a ++ getColumns_loop b.
Proof.
  induction a as [|f a IH]; intros b; simpl; [reflexivity|].
  destruct (getColumn f); simpl; now rewrite IH.
Qed.

Lemma parseColumns_app : forall a b,
  parseColumns (a ++ b) = parseColumns a ++ parseColumns b.
Proof.
  induction a as [|f a IH]; intros b; simpl; [reflexivity|].
  destruct (parseColumn f); simpl; now rewrite IH.
Qed.

(** C10.  A field entry made of exactly one token, and not classified as a
    clause or a generated column, is named by [getColumns] (backtick
    quoted, quote characters stripped) while the column interpreter skips
    it; a freshly parsed model can so have more column names than column
    descriptors. *)
Theorem single_token_field_is_listed_but_not_described (field tok : str) :
  Fields (TrimSpace field) = [tok] ->
  isClause (TrimSpace field) = false ->
  Contains (ToUpper (TrimSpace field)) (bytes "GENERATED ALWAYS AS") = false ->
  (forall d before after,
     fields d = before ++ field :: after ->
     getColumns d
     = getColumns_loop before ++
       (bytes "`" ++ Trim tok quoteChars ++ bytes "`") :: getColumns_loop after /\
     parseColumns (fields d) = parseColumns before ++ parseColumns after) /\
  (exists fuel d,
     parseDDL fuel [bytes "CREATE TABLE `t` (`a` INTEGER, `b`)"] = Ok d /\
     length (columns d) < length (getColumns d)).
Proof.
  intros Htok Hclause Hgen. split.
  - intros d before after E. unfold getColumns. rewrite E.
    rewrite getColumns_loop_app, parseColumns_app. simpl.
    unfold getColumn, parseColumn. rewrite Hclause, Hgen, Htok. simpl.
    split; reflexivity.
  - exists 40. eexists. split; [vm_compute; reflexivity|].
    vm_compute. lia.
Qed.

End FieldEdits.

Lemma addConstraint_upsert_witness :
  fields (addConstraint (U := bytewise) constraint_sample (bytes "uq_name")
            (bytes "CONSTRAINT `uq_name` UNIQUE(`name`,`id`)"))
  = [bytes "`name` TEXT"; bytes "CONSTRAINT `uq_name` UNIQUE(`name`,`id`)"] /\
  fields (addConstraint (U := bytewise) constraint_sample (bytes "uq_other")
            (bytes "CONSTRAINT `uq_other` UNIQUE(`id`)"))
  = [bytes "`name` TEXT"; bytes "CONSTRAINT `uq_name` UNIQUE(`name`)";
     bytes "CONSTRAINT `uq_other` UNIQUE(`id`)"].
Proof.
  split.
  - apply (proj1 (addConstraint_upsert (U := bytewise) constraint_sample
                    (bytes "uq_name")
                    (bytes "CONSTRAINT `uq_name` UNIQUE(`name`,`id`)"))
             [bytes "`name` TEXT"]
             (bytes "CONSTRAINT `uq_name` UNIQUE(`name`)") []).
    + reflexivity.
    + repeat constructor. refute_by_evaluation.
    + split; reflexivity.
  - apply (proj1 (proj2 (addConstraint_upsert (U := bytewise) constraint_sample
                    (bytes "uq_other")
                    (bytes "CONSTRAINT `uq_other` UNIQUE(`id`)")))).
    repeat constructor; refute_by_evaluation.
Defined.

Lemma removeColumn_first_match_witness :
  removeColumn (U := bytewise) columns_sample (bytes "name")
  = (mkDdl (bytes "CREATE TABLE `users`") [bytes "`id` INTEGER"] [], true) /\
  removeColumn (U := bytewise) columns_sample (bytes "ghost")
  = (columns_sample, false).
Proof.
  split.
  - apply (proj1 (removeColumn_first_match (U := bytewise) columns_sample
                    (bytes "name"))
             [bytes "`id` INTEGER"] (bytes "`name` TEXT") []).
    + reflexivity.
    + repeat constructor. refute_by_evaluation.
    + exists (bytes "`name`"), [bytes "TEXT"]. split; reflexivity.
  - apply (proj2 (removeColumn_first_match (U := bytewise) columns_sample
                    (bytes "ghost"))).
    repeat constructor; refute_by_evaluation.
Defined.

Lemma single_token_field_witness :
  getColumns (U := bytewise) single_token_sample = [bytes "`a`"; bytes "`b`"] /\
  length (parseColumns (U := bytewise) (fields single_token_sample)) = 1.
Proof.
  destruct (single_token_field_is_listed_but_not_described (U := bytewise)
              (bytes "`b`") (bytes "`b`") eq_refl eq_refl eq_refl) as [H _].
  destruct (H single_token_sample [bytes "`a` INTEGER"] [] eq_refl) as [H1 H2].
  split.
  - rewrite H1. reflexivity.
  - rewrite H2. reflexivity.
Defined.

(* ================================================================= *)
(** ** Substrings *)

Section Substrings.
Import strings.

Lemma HasPrefix_iff : forall p s,
  HasPrefix s p = true <-> exists r, s = p ++ r.
Proof.
  induction p as [|x p IH]; intros s; simpl.
  - split; [intros _; now exists s | reflexivity].
  - destruct s as [|c s].
    + split; [discriminate | intros [r H]; discriminate].
    + rewrite andb_true_iff, IH. split.
      * intros [Hc [r ->]]. apply Ascii.eqb_eq in Hc. subst. now exists r.
      * intros [r H]. inversion H; subst. split; [apply Ascii.eqb_refl|].
        now exists r.
Qed.

Lemma Index_Some : forall s sub i,
  Index s sub = Some i ->
  FirstOccurrence s sub (firstn i s) (skipn (i + length sub) s) /\
  length (firstn i s) = i.
Proof.
  unfold FirstOccurrence.
  induction s as [|c s IH]; intros sub i H.
  - simpl in H. destruct (HasPrefix [] sub) eqn:Hp; [|discriminate].
    inversion H; subst. apply HasPrefix_iff in Hp as [r Hr].
    destruct sub; [|discriminate]. simpl. repeat split; auto; intros; lia.
  - cbn [Index] in H. destruct (HasPrefix (c :: s) sub) eqn:Hp.
    + inversion H; subst. apply HasPrefix_iff in Hp as [r Hr].
      cbn [firstn Nat.add app]. rewrite Hr at 2.
      rewrite skipn_app, skipn_all, Nat.sub_diag. simpl.
      repeat split; auto; intros; lia.
    + destruct (Index s sub) as [k|] eqn:Hk; [|discriminate].
      inversion H; subst. destruct (IH _ _ Hk) as ((E & Hfirst) & Hlen).
      cbn [firstn Nat.add skipn app length]. repeat split.
      * now rewrite <- E.
      * intros [|j] Hj; [exact Hp|]. simpl. apply Hfirst. lia.
      * now rewrite Hlen.
Qed.

Lemma Index_first : forall pre s sub post,
  FirstOccurrence s sub pre post -> Index s sub = Some (length pre).
Proof.
  unfold FirstOccurrence.
  induction pre as [|c pre IH]; intros s sub post [E Hfirst].
  - subst s. simpl app. destruct (sub ++ post) eqn:Hs; simpl;
      (replace (HasPrefix _ sub) with true;
       [reflexivity | symmetry; apply HasPrefix_iff; exists post; now rewrite Hs]).
  - subst s. cbn [app Index length].
    pose proof (Hfirst 0 ltac:(simpl; lia)) as H0. cbn [skipn app] in H0.
    rewrite H0, (IH (pre ++ sub ++ post) sub post); [reflexivity|].
    split; [reflexivity|]. intros j Hj. apply (Hfirst (S j)). simpl. lia.
Qed.

Lemma Index_None : forall s sub pre post,
  Index s sub = None -> s <> pre ++ sub ++ post.
Proof.
  induction s as [|c s IH]; intros sub pre post H E.
  - simpl in H. destruct (HasPrefix [] sub) eqn:Hp; [discriminate|].
    destruct pre; [|discriminate]. destruct sub; [discriminate|discriminate].
  - cbn [Index] in H. destruct (HasPrefix (c :: s) sub) eqn:Hp; [discriminate|].
    destruct (Index s sub) eqn:Hk; [discriminate|].
    destruct pre as [|x pre].
    + simpl in E. rewrite E in Hp.
      assert (HasPrefix (sub ++ post) sub = true)
        by (apply HasPrefix_iff; now exists post). congruence.
    + inversion E; subst. now apply (IH sub pre post).
Qed.

Lemma Contains_iff s sub :
  Contains s sub = true <-> exists pre post, s = pre ++ sub ++ post.
Proof.
  unfold Contains. destruct (Index s sub) as [i|] eqn:Hi.
  - split; [intros _ | reflexivity].
    apply Index_Some in Hi as ((E & _) & _). eauto.
  - split; [discriminate|]. intros (pre & post & E).
    now apply (Index_None _ _ pre post) in Hi.
Qed.

Lemma Contains_byte c s : Contains s [c] = true <-> In c s.
Proof.
  rewrite Contains_iff. split.
  - intros (pre & post & ->). apply in_or_app. right. now left.
  - intros H. apply in_split in H as (pre & post & ->). now exists pre, post.
Qed.

End Substrings.

(* ================================================================= *)
(** ** Renaming the table *)

Section Rename.
Import strings.

Lemma backquoted_inj a b : backquoted a = backquoted b -> a = b.
Proof.
  unfold backquoted. intros H. apply app_inv_head in H.
  now apply app_inv_tail in H.
Qed.

(** C7 (as amended).  [renameTable] succeeds exactly when the header
    contains the backtick-quoted old name and the new name differs from the
    old one; it then replaces the first occurrence of the backtick-quoted
    old name by the backtick-quoted new name.  Otherwise it fails with the
    look-up error and leaves the model as it was. *)
Theorem renameTable_outcome (d : ddl) (dst src : str) :
  (snd (renameTable d dst src) = None <->
     Contains (head d) (backquoted src) = true /\ src <> dst) /\
  (snd (renameTable d dst src) = None ->
     exists pre post,
       FirstOccurrence (head d) (backquoted src) pre post /\
       head (fst (renameTable d dst src)) = pre ++ backquoted dst ++ post /\
       fields (fst (renameTable d dst src)) = fields d) /\
  (snd (renameTable d dst src) <> None ->
     snd (renameTable d dst src) = Some (ErrLookupTableName src (head d)) /\
     fst (renameTable d dst src) = d).
Proof.
  unfold renameTable, Replace1. cbn [head fields columns].
  destruct (str_eqb (backquoted src) (backquoted dst)) eqn:Hsame.
  - apply str_eqb_eq, backquoted_inj in Hsame. subst dst.
    rewrite (proj2 (str_eqb_eq _ _) eq_refl). cbn [fst snd].
    split; [|split].
    + split; [discriminate | intros [_ H]; now elim H].
    + discriminate.
    + intros _. split; [reflexivity | now destruct d].
  - apply str_eqb_neq in Hsame.
    assert (Hne : src <> dst) by (intros ->; now apply Hsame).
    destruct (Index (head d) (backquoted src)) as [j|] eqn:Hj.
    + pose proof (Index_Some _ _ _ Hj) as (Hocc & _).
      pose proof (proj2 (Contains_iff (head d) (backquoted src))) as Hc.
      destruct Hocc as [E Hfirst].
      set (pre := firstn j (head d)) in *.
      set (post := skipn (j + length (backquoted src)) (head d)) in *.
      assert (Hchg : str_eqb (head d) (pre ++ backquoted dst ++ post) = false).
      { apply str_eqb_neq. rewrite E at 1. intros H.
        apply app_inv_head, app_inv_tail in H. now apply Hsame. }
      rewrite Hchg. cbn [fst snd head fields].
      split; [|split].
      * split; [intros _; split; [apply Hc; eauto | exact Hne] | reflexivity].
      * intros _. exists pre, post. repeat split; assumption.
      * intros H. now elim H.
    + rewrite (proj2 (str_eqb_eq _ _) eq_refl). cbn [fst snd].
      split; [|split].
      * split; [discriminate|]. intros [H _]. unfold Contains in H.
        now rewrite Hj in H.
      * discriminate.
      * intros _. split; [reflexivity | now destruct d].
Qed.

End Rename.

Lemma renameTable_outcome_witness :
  head (fst (renameTable (mkDdl (bytes "CREATE TABLE `users`") [] [])
               (bytes "accounts") (bytes "users")))
  = bytes "CREATE TABLE `accounts`" /\
  snd (renameTable (mkDdl (bytes "CREATE TABLE `users`") [] [])
         (bytes "x") (bytes "does_not_exist"))
  = Some (ErrLookupTableName (bytes "does_not_exist")
            (bytes "CREATE TABLE `users`")).
Proof.
  split.
  - pose proof (renameTable_outcome (mkDdl (bytes "CREATE TABLE `users`") [] [])
                (bytes "accounts") (bytes "users")) as (H1 & H2 & _).
    assert (Hok : snd (renameTable (mkDdl (bytes "CREATE TABLE `users`") [] [])
                         (bytes "accounts") (bytes "users")) = None).
    { apply H1. split; [reflexivity | discriminate]. }
    destruct (H2 Hok) as (pre & post & _ & _ & _).
    vm_compute. reflexivity.
  - pose proof (renameTable_outcome (mkDdl (bytes "CREATE TABLE `users`") [] [])
                (bytes "x") (bytes "does_not_exist")) as (_ & _ & H3).
    apply H3. vm_compute. discriminate.
Defined.

(** C7 as the design document states it fails: the old name is present,
    backtick-quoted, in the header, and yet renaming a table to the name it
    already has reports the look-up error. *)
Lemma renameTable_to_same_name_fails :
  strings.Contains (bytes "CREATE TABLE `users`") (backquoted (bytes "users"))
  = true /\
  snd (renameTable (mkDdl (bytes "CREATE TABLE `users`") [] [])
         (bytes "users") (bytes "users"))
  = Some (ErrLookupTableName (bytes "users") (bytes "CREATE TABLE `users`")).
Proof. split; vm_compute; reflexivity. Qed.

(* ================================================================= *)
(** ** Column attributes *)

Section Columns.
Context {U : GoUnicode}.
Import strings.

Lemma Split_from_first sep : forall base tail cur,
  ~ In sep base ->
  Split_from (base ++ sep :: tail) sep cur
  = (cur ++ base) :: Split_from tail sep [].
Proof.
  induction base as [|c base IH]; intros tail cur Hnot; simpl.
  - now rewrite Ascii.eqb_refl, app_nil_r.
  - destruct (Ascii.eqb_spec c sep) as [->|_].
    + elim Hnot. now left.
    + rewrite IH by (intros H; apply Hnot; now right).
      now rewrite <- app_assoc.
Qed.

Lemma Split_from_upTo sep : forall s cur,
  exists more, Split_from s sep cur = (cur ++ upTo sep s) :: more.
Proof.
  induction s as [|c s IH]; intros cur; simpl.
  - exists []. now rewrite app_nil_r.
  - destruct (Ascii.eqb c sep).
    + eexists. now rewrite app_nil_r.
    + destruct (IH (cur ++ [c])) as [more ->]. exists more.
      now rewrite <- app_assoc.
Qed.

Lemma lengthOf_parenthesis base tail :
  ~ In "("%char base ->
  lengthOf (base ++ "("%char :: tail)
  = match strconv.Atoi (TrimRight (upTo "(" tail) (bytes ")")) with
    | Some n => (sql.mkNullInt64 n true, base)
    | None => (sql.mkNullInt64 0 false, base ++ "("%char :: tail)
    end.
Proof.
  intros Hnot. unfold lengthOf.
  replace (Contains (base ++ "("%char :: tail) (bytes "(")) with true
    by (symmetry; apply Contains_byte, in_or_app; right; now left).
  unfold Split. rewrite Split_from_first by assumption.
  destruct (Split_from_upTo "(" tail []) as [more ->]. reflexivity.
Qed.

(** C6 (as amended).  When the declared type holds an opening parenthesis,
    the text between the first opening parenthesis and the next one (or the
    end), with its trailing closing parentheses removed, is read as an
    integer.  If that succeeds it is the length and the text in front of
    the first parenthesis is the data type; if it fails the length is
    absent and the data type is the declared type as written. *)
Theorem declared_type_length (field name base tail : str) (attrs : list str) :
  isClause (TrimSpace field) = false ->
  Fields (TrimSpace field) = name :: (base ++ "("%char :: tail) :: attrs ->
  ~ In "("%char base ->
  exists column,
    parseColumn field = Some column /\
    ColumnTypeValue column = sql.mkNullString (base ++ "("%char :: tail) true /\
    match strconv.Atoi (TrimRight (upTo "(" tail) (bytes ")")) with
    | Some n =>
        LengthValue column = sql.mkNullInt64 n true /\
        DataTypeValue column = sql.mkNullString base true
    | None =>
        sql.Int64Valid (LengthValue column) = false /\
        DataTypeValue column = sql.mkNullString (base ++ "("%char :: tail) true
    end.
Proof.
  intros Hclause Hfields Hnot. unfold parseColumn.
  rewrite Hclause, Hfields, (lengthOf_parenthesis base tail Hnot).
  destruct (strconv.Atoi _); eexists; repeat split.
Qed.

Lemma SplitN2_first s sub pre post :
  FirstOccurrence s sub pre post -> SplitN2 s sub = [pre; post].
Proof.
  intros H. unfold SplitN2. rewrite (Index_first _ _ _ _ H).
  destruct H as [-> _]. f_equal; [|f_equal].
  - rewrite firstn_app, firstn_all, Nat.sub_diag. simpl. apply app_nil_r.
  - rewrite app_assoc, skipn_app, <- length_app, skipn_all, Nat.sub_diag.
    reflexivity.
Qed.

(** C5 (as amended).  When the remainder of a column entry contains
    [DEFAULT] in some letter case and [DEFAULT] occurs in it in upper case,
    the remainder is split at the first upper-case occurrence and the text
    after it is trimmed; the default is absent when that text equals
    [NULL] in any letter case, and otherwise it is that text without the
    parentheses, opening or closing, at its two ends. *)
Theorem default_clause (field name ty : str) (attrs : list str) (pre post : str) :
  isClause (TrimSpace field) = false ->
  Fields (TrimSpace field) = name :: ty :: attrs ->
  Contains (ToUpper (Join attrs (bytes " "))) (bytes "DEFAULT") = true ->
  FirstOccurrence (Join attrs (bytes " ")) (bytes "DEFAULT") pre post ->
  exists column,
    parseColumn field = Some column /\
    DefaultValueValue column
    = if EqualFold (TrimSpace post) (bytes "NULL")
      then sql.mkNullString [] false
      else sql.mkNullString (Trim (TrimSpace post) (bytes "()")) true.
Proof.
  intros Hclause Hfields Hany Hocc. unfold parseColumn.
  rewrite Hclause, Hfields. destruct (lengthOf ty) as [len base].
  eexists. split; [reflexivity|]. cbn [DefaultValueValue].
  unfold defaultOf. rewrite Hany, (SplitN2_first _ _ _ _ Hocc).
  now destruct (EqualFold _ _).
Qed.

End Columns.

Lemma declared_type_length_witness :
  exists column,
    parseColumn (U := bytewise) (bytes "`name` VARCHAR(255) NOT NULL") = Some column /\
    LengthValue column = sql.mkNullInt64 255 true /\
    DataTypeValue column = sql.mkNullString (bytes "VARCHAR") true.
Proof.
  destruct (declared_type_length (U := bytewise)
              (bytes "`name` VARCHAR(255) NOT NULL") (bytes "`name`")
              (bytes "VARCHAR") (bytes "255)") [bytes "NOT"; bytes "NULL"])
    as (column & Hc & _ & Hlen).
  - vm_compute. reflexivity.
  - vm_compute. reflexivity.
  - vm_compute. intros [H|[H|[H|[H|[H|[H|[H|[]]]]]]]]; discriminate H.
  - exists column. split; [exact Hc | exact Hlen].
Defined.

(** C6 as the design document states it fails: the data type recorded for
    [DECIMAL(10,2)] is the declared type as written, not the text in front
    of the parenthesis. *)
Lemma data_type_keeps_unparsed_length :
  exists column,
    parseColumn (U := bytewise) (bytes "`price` DECIMAL(10,2)") = Some column /\
    DataTypeValue column = sql.mkNullString (bytes "DECIMAL(10,2)") true /\
    sql.String_ (DataTypeValue column) <> bytes "DECIMAL".
Proof.
  eexists. split; [vm_compute; reflexivity|].
  split; [reflexivity | discriminate].
Qed.

Lemma default_clause_witness :
  exists column,
    parseColumn (U := bytewise) (bytes "`id` INTEGER NOT NULL DEFAULT (0)")
    = Some column /\
    DefaultValueValue column = sql.mkNullString (bytes "0") true.
Proof.
  destruct (default_clause (U := bytewise)
              (bytes "`id` INTEGER NOT NULL DEFAULT (0)") (bytes "`id`")
              (bytes "INTEGER")
              [bytes "NOT"; bytes "NULL"; bytes "DEFAULT"; bytes "(0)"]
              (bytes "NOT NULL ") (bytes " (0)"))
    as (column & Hc & Hd).
  - vm_compute. reflexivity.
  - vm_compute. reflexivity.
  - vm_compute. reflexivity.
  - split; [vm_compute; reflexivity|].
    intros j Hj. change (length (bytes "NOT NULL ")) with 9 in Hj.
    do 9 (destruct j as [|j]; [vm_compute; reflexivity|]). lia.
  - exists column. split; [exact Hc | exact Hd].
Defined.

(** C5 as the design document states it fails: around [((1))] the code
    removes both layers of parentheses, not one. *)
Lemma default_loses_every_parenthesis :
  exists column,
    parseColumn (U := bytewise) (bytes "`n` INTEGER DEFAULT ((1))") = Some column /\
    DefaultValueValue column = sql.mkNullString (bytes "1") true /\
    stripOneLayer (bytes "((1))") = bytes "(1)" /\
    sql.String_ (DefaultValueValue column) <> stripOneLayer (bytes "((1))").
Proof.
  eexists. split; [vm_compute; reflexivity|].
  split; [reflexivity|]. split; [reflexivity|]. vm_compute. discriminate.
Qed.

(** The slip that C5 as amended leaves aside: [DEFAULT] is looked for in
    any letter case but the remainder is split on the upper-case word, so a
    lower-case [default] clause records no default value. *)
Lemma lower_case_default_is_dropped :
  exists column,
    parseColumn (U := bytewise) (bytes "`n` INTEGER default 5") = Some column /\
    DefaultValueValue column = sql.mkNullString [] false.
Proof. eexists. split; vm_compute; reflexivity. Qed.

(* ================================================================= *)
(** ** The table body *)

Section TableBody.
Context {U : GoUnicode}.
Local Open Scope char_scope.

Lemma StaysOpen_positive level s : StaysOpen level s -> (0 < level)%Z.
Proof. intros H. specialize (H 0). simpl in H. lia. Qed.

Lemma StaysOpen_cons level c s :
  StaysOpen level (c :: s) <-> (0 < level)%Z /\ StaysOpen (level + delta c) s.
Proof.
  split.
  - intros H. split; [exact (StaysOpen_positive _ _ H)|].
    intros n. specialize (H (S n)). simpl in H. lia.
  - intros [Hpos H] [|n]; simpl; [lia|]. specialize (H n). lia.
Qed.

Lemma StaysOpen_nil level : StaysOpen level [] <-> (0 < level)%Z.
Proof.
  split; [apply StaysOpen_positive|].
  intros H n. rewrite firstn_nil. simpl. lia.
Qed.

Lemma staysOpen_spec : forall s level,
  staysOpen level s = true <-> StaysOpen level s.
Proof.
  induction s as [|c s IH]; intros level; cbn [staysOpen];
    rewrite andb_true_iff, Z.ltb_lt.
  - rewrite StaysOpen_nil. tauto.
  - rewrite StaysOpen_cons, IH. tauto.
Qed.

(** The loop over the table body, by the nesting of what is left of it. *)
Lemma loop_spec : forall body l lv fs cur fuel,
  remaining l = body ->
  length body < fuel ->
  (parseTableFields_loop fuel l (S lv) fs cur = Err ErrUnterminatedTableDefinition
   <-> StaysOpen (Z.of_nat (S lv)) (upTo zero body)) /\
  (~ StaysOpen (Z.of_nat (S lv)) (upTo zero body) ->
   exists fs' l', parseTableFields_loop fuel l (S lv) fs cur = Ok (fs', l')).
Proof.
  induction body as [|c body IH]; intros l lv fs cur fuel Hrem Hfuel;
    (destruct fuel as [|fuel]; [simpl in Hfuel; lia|]);
    cbn [parseTableFields_loop Nat.eqb].
  - rewrite (next_nil _ Hrem). cbn [Ascii.eqb upTo]. rewrite Ascii.eqb_refl.
    rewrite StaysOpen_nil. split; [split; [lia | reflexivity]|].
    intros H. elim H. lia.
  - destruct (next_cons _ _ _ Hrem) as [-> Hrem']. cbn [upTo].
    simpl in Hfuel. apply Nat.succ_lt_mono in Hfuel.
    destruct (Ascii.eqb_spec c zero) as [->|Hz].
    { rewrite StaysOpen_nil. split; [split; [lia | reflexivity]|].
      intros H. elim H. lia. }
    rewrite StaysOpen_cons. unfold delta.
    destruct (Ascii.eqb_spec c "(") as [->|Ho].
    { destruct (IH (advance l 1) (S lv) fs (WriteRune cur "(") fuel Hrem' Hfuel)
        as [IH1 IH2].
      replace (Z.of_nat (S lv) + 1)%Z with (Z.of_nat (S (S lv))) by lia.
      split.
      - rewrite IH1. split; [intros H; split; [lia | exact H] | now intros [_ H]].
      - intros H. apply IH2. intros H'. apply H. split; [lia | exact H']. }
    destruct (Ascii.eqb_spec c ")") as [->|Hc].
    { cbn [pred]. destruct lv as [|lv]; cbn [Nat.eqb].
      - split.
        + split; [discriminate|]. intros [_ H]. apply StaysOpen_positive in H. lia.
        + intros _. eauto.
      - destruct (IH (advance l 1) lv fs (WriteRune cur ")") fuel Hrem' Hfuel)
          as [IH1 IH2].
        replace (Z.of_nat (S (S lv)) + -1)%Z with (Z.of_nat (S lv)) by lia.
        split.
        + rewrite IH1. split; [intros H; split; [lia | exact H] | now intros [_ H]].
        + intros H. apply IH2. intros H'. apply H. split; [lia | exact H']. }
    replace (Z.of_nat (S lv) + 0)%Z with (Z.of_nat (S lv)) by lia.
    destruct (Ascii.eqb c "," && _).
    + destruct (IH (advance l 1) lv (fs ++ [strings.TrimSpace cur]) [] fuel
                  Hrem' Hfuel) as [IH1 IH2].
      split.
      * rewrite IH1. split; [intros H; split; [lia | exact H] | now intros [_ H]].
      * intros H. apply IH2. intros H'. apply H. split; [lia | exact H'].
    + destruct (IH (advance l 1) lv fs (WriteRune cur c) fuel Hrem' Hfuel)
        as [IH1 IH2].
      split.
      * rewrite IH1. split; [intros H; split; [lia | exact H] | now intros [_ H]].
      * intros H. apply IH2. intros H'. apply H. split; [lia | exact H'].
Qed.

Lemma bodyOf_split : forall s,
  In "("%char s ->
  exists a, s = a ++ "("%char :: bodyOf s /\ forallb notOpen a = true.
Proof.
  induction s as [|c s IH]; intros Hin; [destruct Hin|]. cbn [bodyOf].
  destruct (Ascii.eqb_spec c "(") as [->|Hne].
  - now exists [].
  - destruct Hin as [->|Hin]; [now elim Hne|].
    destruct (IH Hin) as (a & E & Ha). exists (c :: a). split.
    + simpl. now rewrite <- E.
    + simpl. rewrite Ha, andb_true_r. unfold notOpen.
      now destruct (Ascii.eqb_spec c "(").
Qed.

(** C4 (as amended).  Once the opening parenthesis of the table body has
    been found, [parseTableFields] fails with the unterminated-table
    error exactly when the nesting counter is still positive where the
    body ends or where its first NUL byte stands, which [next] reports as
    the same sentinel; in every other case it returns the field list. *)
Theorem unterminated_table_definition (l : Lexer) (fuel : nat) :
  In "("%char (remaining l) ->
  length (remaining l) < fuel ->
  (parseTableFields fuel l = Err ErrUnterminatedTableDefinition
   <-> NeverCloses (upTo zero (bodyOf (remaining l)))) /\
  (~ NeverCloses (upTo zero (bodyOf (remaining l))) ->
   exists fs l', parseTableFields fuel l = Ok (fs, l')).
Proof.
  intros Hin Hfuel.
  destruct (bodyOf_split _ Hin) as (a & E & Ha).
  assert (Hlen : length (remaining l) = length a + S (length (bodyOf (remaining l)))).
  { rewrite E at 1. now rewrite length_app. }
  unfold parseTableFields.
  rewrite (skipWhile_found notOpen a l "(" (bodyOf (remaining l)) fuel E Ha eq_refl)
    by lia.
  cbn [bind].
  assert (Hrem : remaining (advance l (length a)) = "("%char :: bodyOf (remaining l)).
  { rewrite remaining_advance. rewrite E at 1.
    now rewrite skipn_app, skipn_all, Nat.sub_diag. }
  destruct (next_cons _ _ _ Hrem) as [-> Hrem']. cbn [snd].
  apply (loop_spec _ _ 0 [] [] fuel Hrem'). lia.
Qed.

End TableBody.

Lemma unterminated_table_definition_witness :
  parseTableFields (U := bytewise) 40
    (newLexer (bytes "CREATE TABLE `t` (`a` CHAR(3"))
  = Err ErrUnterminatedTableDefinition.
Proof.
  apply (unterminated_table_definition (U := bytewise)
           (newLexer (bytes "CREATE TABLE `t` (`a` CHAR(3")) 40).
  - vm_compute. tauto.
  - vm_compute. lia.
  - apply staysOpen_spec. vm_compute. reflexivity.
Defined.

(** C4 as the design document states it fails: a NUL byte in the table
    body raises the unterminated-table error although the input goes on
    and its parentheses close. *)
Lemma nul_byte_ends_table_definition :
  parseTableFields (U := bytewise) 40
    (newLexer (bytes "(`a` INT" ++ zero :: bytes ")"))
  = Err ErrUnterminatedTableDefinition /\
  ~ NeverCloses (bodyOf (bytes "(`a` INT" ++ zero :: bytes ")")).
Proof.
  split; [vm_compute; reflexivity|].
  intros H. apply staysOpen_spec in H. vm_compute in H. discriminate H.
Qed.

(* ================================================================= *)
(** ** Splitting the table body at its top-level commas *)

Section Splitting.
Context {U : GoUnicode}.
Local Open Scope char_scope.
Import strings.

(** Inside a field the loop only moves the nesting counter and writes. *)
Lemma loop_entry : forall f d d' l rest fs cur fuel,
  remaining l = f ++ rest ->
  scan d f = Some d' ->
  parseTableFields_loop (length f + fuel) l (S d) fs cur
  = parseTableFields_loop fuel (advance l (length f)) (S d') fs (written f cur).
Proof.
  induction f as [|c f IH]; intros d d' l rest fs cur fuel Hrem Hscan.
  - simpl in *. inversion Hscan; subst. now rewrite advance_0.
  - cbn [length Nat.add parseTableFields_loop Nat.eqb].
    destruct (next_cons _ _ _ Hrem) as [-> Hrem'].
    cbn [scan] in Hscan. unfold written. cbn [fold_left].
    replace (advance l (S (length f))) with (advance (advance l 1) (length f))
      by (now rewrite advance_advance).
    destruct (Ascii.eqb c zero); [discriminate|].
    destruct (Ascii.eqb c "("); [now apply (IH _ _ _ rest)|].
    destruct (Ascii.eqb c ")").
    { destruct d as [|d]; [discriminate|]. cbn [pred Nat.eqb].
      now apply (IH _ _ _ rest). }
    destruct (Ascii.eqb c ",").
    { destruct d as [|d]; [discriminate|]. cbn [andb Nat.eqb].
      now apply (IH _ _ _ rest). }
    cbn [andb]. now apply (IH _ _ _ rest).
Qed.

Lemma loop_entries : forall es l rest fs fuel,
  es <> [] ->
  Forall Entry es ->
  remaining l = Join es (bytes ",") ++ ")" :: rest ->
  parseTableFields_loop (length (Join es (bytes ",")) + 1 + fuel) l 1 fs []
  = Ok (fs ++ entriesFields es, advance l (length (Join es (bytes ",")) + 1)).
Proof.
  induction es as [|e es IH]; intros l rest fs fuel Hne Hall Hrem;
    [now elim Hne|].
  inversion Hall as [|? ? He Hes]; subst. unfold Entry in He.
  destruct es as [|e2 es].
  - cbn [Join] in *. rewrite <- Nat.add_assoc.
    rewrite (loop_entry e 0 0 l _ fs [] (1 + fuel) Hrem He).
    assert (Hrem' : remaining (advance l (length e)) = ")" :: rest).
    { rewrite remaining_advance, Hrem.
      now rewrite skipn_app, skipn_all, Nat.sub_diag. }
    cbn [Nat.add parseTableFields_loop Nat.eqb].
    destruct (next_cons _ _ _ Hrem') as [-> _].
    cbn [Ascii.eqb Bool.eqb zero pred Nat.eqb entriesFields].
    rewrite advance_advance.
    destruct (written e []); [now rewrite app_nil_r | reflexivity].
  - set (tl := e2 :: es) in *.
    assert (HJ : Join (e :: tl) (bytes ",") = e ++ "," :: Join tl (bytes ","))
      by reflexivity.
    rewrite HJ in *. rewrite <- app_assoc in Hrem. cbn [app] in Hrem.
    rewrite length_app. cbn [length].
    replace (length e + S (length (Join tl (bytes ","))) + 1 + fuel)
      with (length e + (1 + (length (Join tl (bytes ",")) + 1 + fuel))) by lia.
    rewrite (loop_entry e 0 0 l _ fs [] _ Hrem He).
    assert (Hrem' : remaining (advance l (length e))
                    = "," :: Join tl (bytes ",") ++ ")" :: rest).
    { rewrite remaining_advance, Hrem.
      now rewrite skipn_app, skipn_all, Nat.sub_diag. }
    cbn [Nat.add parseTableFields_loop Nat.eqb].
    destruct (next_cons _ _ _ Hrem') as [-> Hrem''].
    cbn [Ascii.eqb Bool.eqb zero andb Nat.eqb].
    rewrite (IH (advance (advance l (length e)) 1) rest _ fuel
               ltac:(discriminate) Hes Hrem'').
    rewrite !advance_advance, <- app_assoc. subst tl.
    change (entriesFields (e :: e2 :: es))
      with (TrimSpace (written e []) :: entriesFields (e2 :: es)).
    cbn [app].
    replace (length e + (1 + (length (Join (e2 :: es) (bytes ",")) + 1)))
      with (length e + S (length (Join (e2 :: es) (bytes ","))) + 1) by lia.
    reflexivity.
Qed.

Lemma entriesFields_length : forall es,
  last es [] <> [] -> length (entriesFields es) = length es.
Proof.
  induction es as [|e es IH]; intros Hlast; [reflexivity|].
  destruct es as [|e2 es].
  - cbn [last] in Hlast. cbn [entriesFields].
    destruct e as [|c e]; [now elim Hlast|].
    assert (H : written (c :: e) [] <> []).
    { unfold written. cbn [fold_left].
      assert (Hgrow : forall f b, b <> [] -> fold_left WriteRune f b <> []).
      { induction f as [|x f IHf]; intros b Hb; [exact Hb|].
        cbn [fold_left]. apply IHf. unfold WriteRune.
        destruct (isASCIIbyte x); destruct b; discriminate. }
      apply Hgrow. unfold WriteRune. destruct (isASCIIbyte c); discriminate. }
    destruct (written (c :: e) []); [now elim H | reflexivity].
  - change (length (entriesFields (e :: e2 :: es)))
      with (S (length (entriesFields (e2 :: es)))).
    cbn [length]. f_equal. apply IH. exact Hlast.
Qed.

Lemma parseTableFields_entries (l : Lexer) (a : str) (es : list str)
    (rest : str) (fuel : nat) :
  remaining l = a ++ "(" :: Join es (bytes ",") ++ ")" :: rest ->
  forallb notOpen a = true ->
  Forall Entry es ->
  es <> [] ->
  length (remaining l) <= fuel ->
  parseTableFields fuel l
  = Ok (entriesFields es,
        advance l (length a + 1 + (length (Join es (bytes ",")) + 1))).
Proof.
  intros Hrem Ha Hall Hne Hfuel.
  assert (Hlen : length (remaining l)
                 = length a + S (length (Join es (bytes ",")) + S (length rest))).
  { rewrite Hrem, length_app. cbn [length]. rewrite length_app. reflexivity. }
  unfold parseTableFields.
  rewrite (skipWhile_found notOpen a l "(" _ fuel Hrem Ha eq_refl) by lia.
  cbn [bind].
  assert (Hrem1 : remaining (advance l (length a))
                  = "(" :: Join es (bytes ",") ++ ")" :: rest).
  { rewrite remaining_advance, Hrem.
    now rewrite skipn_app, skipn_all, Nat.sub_diag. }
  destruct (next_cons _ _ _ Hrem1) as [-> Hrem2]. cbn [snd].
  replace fuel
    with (length (Join es (bytes ",")) + 1
          + (fuel - (length (Join es (bytes ",")) + 1))) at 1 by lia.
  rewrite (loop_entries es _ rest [] _ Hne Hall Hrem2).
  rewrite !advance_advance, Nat.add_assoc. reflexivity.
Qed.

(** C2.  A comma separates two fields only where the nesting counter is 1:
    a table body made of entries whose own commas are all nested is split
    into exactly these entries, and the statement of the design document
    yields its two fields. *)
Theorem nested_commas_do_not_split :
  (exists d,
     parseDDL 80
       [bytes "CREATE TABLE `t` (`a` DECIMAL(10,2), `b` TEXT CHECK (`b` <> ''))"]
     = Ok d /\
     fields d = [bytes "`a` DECIMAL(10,2)"; bytes "`b` TEXT CHECK (`b` <> '')"] /\
     length (fields d) = 2) /\
  (forall (l : Lexer) (a : str) (es : list str) (rest : str) (fuel : nat),
     remaining l = a ++ "(" :: Join es (bytes ",") ++ ")" :: rest ->
     forallb notOpen a = true ->
     Forall Entry es ->
     es <> [] ->
     length (remaining l) <= fuel ->
     (exists l', parseTableFields fuel l = Ok (entriesFields es, l')) /\
     (last es [] <> [] -> length (entriesFields es) = length es)).
Proof.
  split.
  - eexists. split; [vm_compute; reflexivity|]. split; reflexivity.
  - intros l a es rest fuel Hrem Ha Hall Hne Hfuel.
    split; [|apply entriesFields_length].
    eexists. now apply (parseTableFields_entries l a es rest fuel).
Qed.

End Splitting.

Lemma nested_commas_do_not_split_witness :
  exists l',
    parseTableFields (U := bytewise) 80
      (newLexer
         (bytes "CREATE TABLE `t` (`a` DECIMAL(10,2), `b` TEXT CHECK (`b` <> ''))"))
    = Ok ([bytes "`a` DECIMAL(10,2)"; bytes "`b` TEXT CHECK (`b` <> '')"], l').
Proof.
  apply (proj2 (nested_commas_do_not_split (U := bytewise))
           (newLexer
              (bytes "CREATE TABLE `t` (`a` DECIMAL(10,2), `b` TEXT CHECK (`b` <> ''))"))
           (bytes "CREATE TABLE `t` ")
           [bytes "`a` DECIMAL(10,2)"; bytes " `b` TEXT CHECK (`b` <> '')"]
           [] 80).
  - vm_compute. reflexivity.
  - vm_compute. reflexivity.
  - repeat constructor.
  - discriminate.
  - vm_compute. lia.
Defined.

(* ================================================================= *)
(** ** ASCII text *)

Section AsciiText.
Context {U : GoUnicode}.
Local Open Scope char_scope.
Import strings.

Lemma WriteRune_ascii b r : isASCIIbyte r = true -> WriteRune b r = b ++ [r].
Proof. intros H. unfold WriteRune. now rewrite H. Qed.


Lemma isASCII_app a b : isASCII (a ++ b) = isASCII a && isASCII b.
Proof. apply forallb_app. Qed.

Lemma isASCII_skipn : forall n s, isASCII s = true -> isASCII (skipn n s) = true.
Proof.
  induction n as [|n IH]; intros [|c s] H; simpl; auto.
  simpl in H. apply andb_prop in H as [_ H]. now apply IH.
Qed.

Lemma isASCII_rev s : isASCII s = true -> isASCII (rev s) = true.
Proof.
  unfold isASCII. rewrite !forallb_forall. intros H c Hc.
  apply H. now apply in_rev.
Qed.

Lemma space_is_plain c :
  asciiSpace c = true ->
  Ascii.eqb c zero = false /\ Ascii.eqb c "(" = false /\
  Ascii.eqb c ")" = false /\ Ascii.eqb c "," = false.
Proof.
  intros H. repeat split;
    match goal with
    | |- Ascii.eqb c ?x = false =>
        destruct (Ascii.eqb_spec c x) as [->|]; [discriminate H | reflexivity]
    end.
Qed.

Lemma scan_app : forall a d b,
  scan d (a ++ b)
  = match scan d a with Some d' => scan d' b | None => None end.
Proof.
  induction a as [|c a IH]; intros d b; [reflexivity|]. cbn [app scan].
  destruct (Ascii.eqb c zero); [reflexivity|].
  destruct (Ascii.eqb c "("); [apply IH|].
  destruct (Ascii.eqb c ")"); [destruct d; [reflexivity | apply IH]|].
  destruct (Ascii.eqb c ","); [destruct d; [reflexivity | apply IH]|].
  apply IH.
Qed.

Lemma scan_spaces : forall w d, forallb asciiSpace w = true -> scan d w = Some d.
Proof.
  induction w as [|c w IH]; intros d H; [reflexivity|].
  simpl in H. apply andb_prop in H as [Hc Hw].
  destruct (space_is_plain c Hc) as (H0 & H1 & H2 & H3).
  cbn [scan]. rewrite H0, H1, H2, H3. now apply IH.
Qed.

Lemma scan_between_spaces d w1 t w2 :
  forallb asciiSpace w1 = true ->
  forallb asciiSpace w2 = true ->
  scan d (w1 ++ t ++ w2) = scan d t.
Proof.
  intros H1 H2. rewrite scan_app, (scan_spaces w1 d H1), scan_app.
  destruct (scan d t) as [d'|]; [now apply scan_spaces | reflexivity].
Qed.

(** The backward loop of [TrimSpace] on ASCII text. *)
Lemma TrimSpace_stop_ascii : forall r,
  isASCII r = true ->
  exists w v,
    r = w ++ v /\ forallb asciiSpace w = true /\
    TrimSpace_stop r = rev v /\
    match v with [] => True | x :: _ => asciiSpace x = false end.
Proof.
  induction r as [|c r IH]; intros H.
  - exists [], []. repeat split.
  - simpl in H. apply andb_prop in H as [Hc Hr]. cbn [TrimSpace_stop].
    rewrite Hc. cbn [negb]. destruct (asciiSpace c) eqn:Hs.
    + destruct (IH Hr) as (w & v & -> & Hw & Hv & Hhd).
      exists (c :: w), v. repeat split; auto. simpl. now rewrite Hs, Hw.
    + exists [], (c :: r). repeat split; auto.
Qed.

(** [TrimSpace] on ASCII text removes spaces at both ends and nothing
    else, and trimming twice is trimming once. *)
Lemma TrimSpace_ascii : forall s,
  isASCII s = true ->
  exists w1 w2,
    s = w1 ++ TrimSpace s ++ w2 /\
    forallb asciiSpace w1 = true /\ forallb asciiSpace w2 = true /\
    isASCII (TrimSpace s) = true /\
    TrimSpace (TrimSpace s) = TrimSpace s.
Proof.
  induction s as [|c s IH]; intros H.
  - exists [], []. repeat split.
  - pose proof H as Hall. simpl in H. apply andb_prop in H as [Hc Hs].
    cbn [TrimSpace]. rewrite Hc. cbn [negb].
    destruct (asciiSpace c) eqn:Hsp.
    + destruct (IH Hs) as (w1 & w2 & E & H1 & H2 & H3 & H4).
      exists (c :: w1), w2. repeat split; auto.
      * simpl. now rewrite <- E.
      * simpl. now rewrite Hsp, H1.
    + destruct (TrimSpace_stop_ascii (rev (c :: s)) (isASCII_rev _ Hall))
        as (w & v & E & Hw & Hv & Hhd).
      rewrite Hv.
      assert (Es : c :: s = rev v ++ rev w).
      { rewrite <- rev_app_distr, <- E. now rewrite rev_involutive. }
      assert (Hv_ascii : isASCII v = true).
      { pose proof (isASCII_rev _ Hall) as Hr. rewrite E, isASCII_app in Hr.
        now apply andb_prop in Hr as [_ Hr]. }
      destruct v as [|x v].
      { (* every character would be a space *)
        simpl in Es. assert (Hin : In c (rev w)) by (rewrite <- Es; now left).
        apply in_rev in Hin.
        rewrite forallb_forall in Hw. rewrite (Hw _ Hin) in Hsp. discriminate. }
      exists [], (rev w). repeat split.
      * exact Es.
      * rewrite forallb_forall in *. intros y Hy. apply Hw. now apply in_rev.
      * now apply isASCII_rev.
      * (* the trimmed text starts with [c] and ends with [x] *)
        destruct (rev (x :: v)) as [|c' t] eqn:Erev.
        { apply (f_equal (@length _)) in Erev. rewrite length_rev in Erev.
          discriminate. }
        inversion Es; subst c'. cbn [TrimSpace]. rewrite Hc, Hsp. cbn [negb].
        rewrite <- Erev, rev_involutive. cbn [TrimSpace_stop].
        simpl in Hv_ascii. apply andb_prop in Hv_ascii as [Hx _].
        now rewrite Hx, Hhd.
Qed.

Lemma TrimSpace_scan d s :
  isASCII s = true -> scan d (TrimSpace s) = scan d s.
Proof.
  intros H. destruct (TrimSpace_ascii s H) as (w1 & w2 & E & H1 & H2 & _).
  rewrite E at 2. now rewrite scan_between_spaces.
Qed.

End AsciiText.

(* ================================================================= *)
(** ** What the statement parser stores *)

Section Stored.
Context {U : GoUnicode}.
Local Open Scope char_scope.
Import strings.

Lemma isASCII_remaining l :
  isASCII (input l) = true -> isASCII (remaining l) = true.
Proof. apply isASCII_skipn. Qed.



Lemma StoredField_TrimSpace cur :
  isASCII cur = true -> scan 0 cur = Some 0 -> StoredField (TrimSpace cur).
Proof.
  intros Ha Hs. destruct (TrimSpace_ascii cur Ha) as (_ & _ & _ & _ & _ & H1 & H2).
  repeat split; auto. unfold Entry. now rewrite TrimSpace_scan.
Qed.

Lemma loop_stores_fields : forall fuel l lv fs cur fs' l',
  isASCII (input l) = true ->
  parseTableFields_loop fuel l (S lv) fs cur = Ok (fs', l') ->
  Forall StoredField fs ->
  scan 0 cur = Some lv ->
  isASCII cur = true ->
  Forall StoredField fs'.
Proof.
  induction fuel as [|fuel IH]; intros l lv fs cur fs' l' Hin H Hfs Hcur Ha;
    [discriminate|].
  cbn [parseTableFields_loop Nat.eqb] in H.
  pose proof (isASCII_remaining l Hin) as Hrem.
  destruct (remaining l) as [|c rest] eqn:E.
  - rewrite (next_nil _ E) in H. now rewrite Ascii.eqb_refl in H.
  - destruct (next_cons _ _ _ E) as [Hn _]. rewrite Hn in H.
    simpl in Hrem. apply andb_prop in Hrem as [Hc _].
    rewrite (WriteRune_ascii cur c Hc) in H.
    assert (Ha' : isASCII (cur ++ [c]) = true)
      by (rewrite isASCII_app, Ha; simpl; now rewrite Hc).
    assert (Hin' : isASCII (input (advance l 1)) = true) by exact Hin.
    destruct (Ascii.eqb c zero) eqn:E0; [discriminate|].
    destruct (Ascii.eqb c "(") eqn:E1.
    { apply (IH _ _ _ _ _ _ Hin' H Hfs); auto.
      rewrite scan_app, Hcur. cbn [scan]. now rewrite E0, E1. }
    destruct (Ascii.eqb c ")") eqn:E2.
    { cbn [pred] in H. destruct lv as [|lv]; cbn [Nat.eqb] in H.
      - inversion H; subst. destruct cur; [assumption|].
        apply Forall_app. split; [assumption|]. constructor; [|constructor].
        now apply StoredField_TrimSpace.
      - apply (IH _ _ _ _ _ _ Hin' H Hfs); auto.
        rewrite scan_app, Hcur. cbn [scan]. now rewrite E0, E1, E2. }
    destruct (Ascii.eqb c ",") eqn:E3.
    { destruct lv as [|lv]; cbn [andb Nat.eqb] in H.
      - apply (IH _ _ _ _ _ _ Hin' H); auto.
        apply Forall_app. split; [assumption|]. constructor; [|constructor].
        now apply StoredField_TrimSpace.
      - apply (IH _ _ _ _ _ _ Hin' H Hfs); auto.
        rewrite scan_app, Hcur. cbn [scan]. now rewrite E0, E1, E2, E3. }
    cbn [andb] in H.
    apply (IH _ _ _ _ _ _ Hin' H Hfs); auto.
    rewrite scan_app, Hcur. cbn [scan]. now rewrite E0, E1, E2, E3.
Qed.

Lemma parseTableFields_stores fuel l fs l' :
  isASCII (input l) = true ->
  parseTableFields fuel l = Ok (fs, l') ->
  Forall StoredField fs.
Proof.
  intros Hin H. unfold parseTableFields in H.
  destruct (skipWhile notOpen fuel l) as [l1| |] eqn:Hs; try discriminate.
  cbn [bind] in H. apply skipWhile_Ok_inv in Hs as (_ & Hi & _).
  apply (loop_stores_fields _ _ 0 [] [] _ _) in H; auto.
  unfold next. destruct (_ <=? _)%nat; cbn [snd input]; congruence.
Qed.



End Stored.

(* ================================================================= *)
(** ** More fuel does not change a result *)

Section Fuel.
Context {U : GoUnicode}.

Lemma skipWhile_mono cond : forall f k l l',
  skipWhile cond f l = Ok l' -> skipWhile cond (f + k) l = Ok l'.
Proof.
  induction f as [|f IH]; intros k l l' H; [discriminate|].
  cbn [Nat.add skipWhile] in *. destruct (cond (peek l)); auto.
Qed.







End Fuel.

(* ================================================================= *)
(** ** Round trip *)

Section RoundTripProof.
Context {U : GoUnicode}.
Local Open Scope char_scope.
Import strings.

Lemma skipn_length_app (A : Type) (a b : list A) n :
  skipn (length a + n) (a ++ b) = skipn n b.
Proof.
  rewrite Nat.add_comm, <- skipn_skipn, skipn_app, skipn_all, Nat.sub_diag.
  reflexivity.
Qed.






End RoundTripProof.



(** Why C1 as amended asks for a last entry that is not empty: an empty
    entry at the end of the body is stored by the first parse and is not
    written back in a form the second parse stores. *)
Lemma trailing_empty_field_is_lost :
  parseDDL (U := bytewise) 40 [bytes "CREATE TABLE `t` (`a` INT, )"]
  = Ok (mkDdl (bytes "CREATE TABLE `t`") [bytes "`a` INT"; []]
          (parseColumns (U := bytewise) [bytes "`a` INT"])) /\
  parseDDL (U := bytewise) 40 [bytes "CREATE TABLE `t` (`a` INT,)"]
  = Ok (mkDdl (bytes "CREATE TABLE `t`") [bytes "`a` INT"]
          (parseColumns (U := bytewise) [bytes "`a` INT"])).
Proof. split; vm_compute; reflexivity. Qed.

(** Why C1 as amended asks for ASCII text: the Scanner hands each byte on
    as a rune of its own, and a rune above 0x7F is written as two bytes, so
    the two bytes of a UTF-8 encoded [e] with acute accent are stored as
    four. *)
Lemma bytes_above_7F_are_reencoded :
  written ["195"; "169"]%char [] = ["195"; "131"; "194"; "169"]%char.
Proof. vm_compute. reflexivity. Qed.

(* ================================================================= *)
(** ** Named constraints: look-up, removal, and how they compose *)

Section Constraints.
Context {U : GoUnicode}.
Import strings.

Lemma constraint_split name : forall fs,
  Forall (fun f => ~ ConstraintNamed name f) fs \/
  exists before field after,
    fs = before ++ field :: after /\
    Forall (fun f => ~ ConstraintNamed name f) before /\
    ConstraintNamed name field.
Proof.
  induction fs as [|f fs IH]; [left; constructor|].
  destruct (isConstraint name f) eqn:Hf.
  - right. exists [], f, fs.
    split; [reflexivity | split; [constructor | now apply isConstraint_spec]].
  - assert (Hn : ~ ConstraintNamed name f)
      by (rewrite <- isConstraint_spec; congruence).
    destruct IH as [IH|(before & field & after & -> & Hb & Hfield)].
    + left. now constructor.
    + right. exists (f :: before), field, after.
      split; [reflexivity | split; [now constructor | assumption]].
Qed.

Lemma removeConstraint_loop_found name : forall before seen field after,
  Forall (fun f => ~ ConstraintNamed name f) before ->
  ConstraintNamed name field ->
  removeConstraint_loop seen (before ++ field :: after) name
  = (seen ++ before ++ after, true).
Proof.
  induction before as [|f before IH]; intros seen field after Hb Hf; simpl.
  - apply isConstraint_spec in Hf. now rewrite Hf.
  - inversion Hb as [|? ? Hnf Hb']; subst.
    rewrite <- isConstraint_spec in Hnf. apply not_true_false in Hnf.
    rewrite Hnf, IH by assumption. now rewrite <- app_assoc.
Qed.

Lemma removeConstraint_loop_missing name : forall rest seen,
  Forall (fun f => ~ ConstraintNamed name f) rest ->
  removeConstraint_loop seen rest name = (seen ++ rest, false).
Proof.
  induction rest as [|f rest IH]; intros seen Hr; simpl.
  - now rewrite app_nil_r.
  - inversion Hr as [|? ? Hnf Hr']; subst.
    rewrite <- isConstraint_spec in Hnf. apply not_true_false in Hnf.
    rewrite Hnf, IH by assumption. now rewrite <- app_assoc.
Qed.

Lemma hasConstraint_loop_found name : forall before field after,
  ConstraintNamed name field ->
  hasConstraint_loop (before ++ field :: after) name = true.
Proof.
  induction before as [|f before IH]; intros field after Hf; simpl.
  - apply isConstraint_spec in Hf. now rewrite Hf.
  - destruct (isConstraint name f); [reflexivity | now apply IH].
Qed.

Lemma hasConstraint_loop_missing name : forall fs,
  Forall (fun f => ~ ConstraintNamed name f) fs ->
  hasConstraint_loop fs name = false.
Proof.
  induction fs as [|f fs IH]; intros Hall; [reflexivity|]. simpl.
  inversion Hall as [|? ? Hnf Hfs]; subst.
  rewrite <- isConstraint_spec in Hnf. apply not_true_false in Hnf.
  rewrite Hnf. now apply IH.
Qed.

Lemma hasConstraint_false_iff d name :
  hasConstraint d name = false <->
  Forall (fun f => ~ ConstraintNamed name f) (fields d).
Proof.
  unfold hasConstraint. split.
  - intros H. destruct (constraint_split name (fields d))
      as [Hall|(before & field & after & E & _ & Hf)]; [exact Hall|].
    rewrite E, (hasConstraint_loop_found name before field after Hf) in H.
    discriminate.
  - apply hasConstraint_loop_missing.
Qed.

(** X1.  [hasConstraint] answers [true] exactly when some field is a
    [CONSTRAINT] clause whose text contains the name, and the flag that
    [removeConstraint] returns is that answer. *)
Theorem removeConstraint_reports_hasConstraint (d : ddl) (name : str) :
  (hasConstraint d name = true <->
   Exists (ConstraintNamed name) (fields d)) /\
  snd (removeConstraint d name) = hasConstraint d name.
Proof.
  split.
  - split.
    + intros H. destruct (constraint_split name (fields d))
        as [Hall|(before & field & after & E & _ & Hf)].
      * apply hasConstraint_false_iff in Hall. congruence.
      * rewrite E. apply Exists_app. right. now constructor.
    + intros H. destruct (hasConstraint d name) eqn:E; [reflexivity|].
      apply hasConstraint_false_iff in E. rewrite Forall_forall in E.
      apply Exists_exists in H as (f & Hin & Hf). now elim (E f Hin).
  - unfold removeConstraint, hasConstraint.
    destruct (constraint_split name (fields d))
      as [Hall|(before & field & after & E & Hb & Hf)].
    + rewrite (removeConstraint_loop_missing name _ [] Hall).
      now rewrite (hasConstraint_loop_missing name _ Hall).
    + rewrite E, (removeConstraint_loop_found name before [] field after Hb Hf).
      now rewrite (hasConstraint_loop_found name before field after Hf).
Qed.

(** X2.  [removeConstraint] removes the first [CONSTRAINT] clause whose
    text contains the name and nothing else; when there is none the model
    comes back as it was, with [false]. *)
Theorem removeConstraint_first_match (d : ddl) (name : str) :
  (forall before field after,
     fields d = before ++ field :: after ->
     Forall (fun f => ~ ConstraintNamed name f) before ->
     ConstraintNamed name field ->
     removeConstraint d name
     = (mkDdl (head d) (before ++ after) (columns d), true)) /\
  (Forall (fun f => ~ ConstraintNamed name f) (fields d) ->
     removeConstraint d name = (d, false)).
Proof.
  split.
  - intros before field after E Hb Hf. unfold removeConstraint. rewrite E.
    now rewrite removeConstraint_loop_found.
  - intros Hall. unfold removeConstraint.
    rewrite removeConstraint_loop_missing by assumption. now destruct d.
Qed.

(** X3.  After [addConstraint(name, sql)], where [sql] is itself a
    [CONSTRAINT] clause that contains [name], [hasConstraint(name)] holds,
    and adding the same constraint a second time changes nothing. *)
Theorem addConstraint_then_hasConstraint (d : ddl) (name sql : str) :
  ConstraintNamed name sql ->
  hasConstraint (addConstraint d name sql) name = true /\
  addConstraint (addConstraint d name sql) name sql = addConstraint d name sql.
Proof.
  intros Hsql. unfold hasConstraint, addConstraint. cbn [fields head columns].
  destruct (constraint_split name (fields d))
    as [Hall|(before & field & after & E & Hb & Hf)].
  - rewrite (addConstraint_loop_missing name sql _ [] Hall). cbn [app].
    split; [now apply hasConstraint_loop_found|].
    now rewrite (addConstraint_loop_found name sql _ [] sql [] Hall Hsql).
  - rewrite E, (addConstraint_loop_found name sql before [] field after Hb Hf).
    cbn [app]. split; [now apply hasConstraint_loop_found|].
    now rewrite (addConstraint_loop_found name sql before [] sql after Hb Hsql).
Qed.

(** X4.  On a model without a constraint of that name, [removeConstraint]
    undoes [addConstraint]: the model is the one before the addition. *)
Theorem removeConstraint_undoes_addConstraint (d : ddl) (name sql : str) :
  hasConstraint d name = false ->
  ConstraintNamed name sql ->
  removeConstraint (addConstraint d name sql) name = (d, true).
Proof.
  intros Hno Hsql. apply hasConstraint_false_iff in Hno.
  unfold removeConstraint, addConstraint. cbn [fields head columns].
  rewrite (addConstraint_loop_missing name sql _ [] Hno). cbn [app].
  rewrite (removeConstraint_loop_found name (fields d) [] sql [] Hno Hsql).
  cbn [app]. rewrite app_nil_r. now destruct d.
Qed.

Lemma column_split name : forall fs,
  Forall (fun f => ~ NamesColumn name f) fs \/
  exists before field after,
    fs = before ++ field :: after /\
    Forall (fun f => ~ NamesColumn name f) before /\
    NamesColumn name field.
Proof.
  induction fs as [|f fs IH]; [left; constructor|].
  destruct (isColumn name f) eqn:Hf.
  - right. exists [], f, fs.
    split; [reflexivity | split; [constructor | now apply isColumn_spec]].
  - assert (Hn : ~ NamesColumn name f)
      by (rewrite <- isColumn_spec; congruence).
    destruct IH as [IH|(before & field & after & -> & Hb & Hfield)].
    + left. now constructor.
    + right. exists (f :: before), field, after.
      split; [reflexivity | split; [now constructor | assumption]].
Qed.

(** X5.  How the edits change the number of fields: [addConstraint] adds
    one field exactly when no constraint of that name exists, and
    [removeConstraint] and [removeColumn] take away one field exactly when
    they return [true]. *)
Theorem edits_and_field_count (d : ddl) (name sql : str) :
  length (fields (addConstraint d name sql))
  = length (fields d) + (if hasConstraint d name then 0 else 1) /\
  length (fields (fst (removeConstraint d name)))
  + (if snd (removeConstraint d name) then 1 else 0)
  = length (fields d) /\
  length (fields (fst (removeColumn d name)))
  + (if snd (removeColumn d name) then 1 else 0)
  = length (fields d).
Proof.
  split; [|split].
  - unfold addConstraint, hasConstraint. cbn [fields].
    destruct (constraint_split name (fields d))
      as [Hall|(before & field & after & E & Hb & Hf)].
    + rewrite (addConstraint_loop_missing name sql _ [] Hall).
      rewrite (hasConstraint_loop_missing name _ Hall). cbn [app].
      now rewrite length_app.
    + rewrite E, (addConstraint_loop_found name sql before [] field after Hb Hf).
      rewrite (hasConstraint_loop_found name before field after Hf).
      cbn [app]. rewrite !length_app. cbn [length]. lia.
  - unfold removeConstraint.
    destruct (constraint_split name (fields d))
      as [Hall|(before & field & after & E & Hb & Hf)].
    + rewrite (removeConstraint_loop_missing name _ [] Hall). cbn. lia.
    + rewrite E, (removeConstraint_loop_found name before [] field after Hb Hf).
      cbn [fst snd fields app]. rewrite !length_app. cbn [length]. lia.
  - unfold removeColumn.
    destruct (column_split name (fields d))
      as [Hall|(before & field & after & E & Hb & Hf)].
    + rewrite (removeColumn_loop_missing name _ [] Hall). cbn. lia.
    + rewrite E, (removeColumn_loop_found name before [] field after Hb Hf).
      cbn [fst snd fields app]. rewrite !length_app. cbn [length]. lia.
Qed.

(** No edit recomputes the column descriptors, and only
    [renameTable] touches the header: after [addConstraint],
    [removeConstraint] and [removeColumn] the header and the descriptors
    are the ones the model had, and after [renameTable] the fields and
    the descriptors are. *)
Lemma edits_keep_descriptors (d : ddl) (name sql dst src : str) :
  (head (addConstraint d name sql) = head d /\
   columns (addConstraint d name sql) = columns d) /\
  (head (fst (removeConstraint d name)) = head d /\
   columns (fst (removeConstraint d name)) = columns d) /\
  (head (fst (removeColumn d name)) = head d /\
   columns (fst (removeColumn d name)) = columns d) /\
  (fields (fst (renameTable d dst src)) = fields d /\
   columns (fst (renameTable d dst src)) = columns d).
Proof.
  repeat split.
  - unfold removeConstraint. now destruct (removeConstraint_loop _ _ _).
  - unfold removeConstraint. now destruct (removeConstraint_loop _ _ _).
  - unfold removeColumn. now destruct (removeColumn_loop _ _ _).
  - unfold removeColumn. now destruct (removeColumn_loop _ _ _).
  - unfold renameTable. now destruct (str_eqb _ _).
  - unfold renameTable. now destruct (str_eqb _ _).
Qed.

End Constraints.

(* ================================================================= *)
(** ** The Scanner's extraction routines *)

Section Extraction.
Local Open Scope char_scope.

Lemma parseString_loop_result : forall body q acc l fuel,
  remaining l = body ->
  length body < fuel ->
  parseString_loop fuel q acc l
  = if existsb (fun c => Ascii.eqb c q) (upTo zero body)
    then Ok (written (upTo q body) acc, advance l (S (length (upTo q body))))
    else Err ErrUnterminatedString.
Proof.
  induction body as [|c body IH]; intros q acc l fuel Hrem Hfuel;
    (destruct fuel as [|fuel]; [simpl in Hfuel; lia|]);
    cbn [parseString_loop].
  - rewrite (next_nil _ Hrem). now rewrite Ascii.eqb_refl.
  - destruct (next_cons _ _ _ Hrem) as [-> Hrem']. cbn [upTo].
    destruct (Ascii.eqb c zero); [reflexivity|]. cbn [existsb].
    destruct (Ascii.eqb c q); [reflexivity|]. cbn [orb length].
    simpl in Hfuel. rewrite (IH q _ (advance l 1) fuel Hrem') by lia.
    destruct (existsb _ _); [|reflexivity].
    rewrite advance_advance. reflexivity.
Qed.

Lemma parseString_quoted (l : Lexer) (fuel : nat) (q : ascii) (body : str) :
  remaining l = q :: body ->
  length body < fuel ->
  parseString fuel l
  = if existsb (fun c => Ascii.eqb c q) (upTo zero body)
    then Ok (written (upTo q body) [],
             advance l (S (S (length (upTo q body)))))
    else Err ErrUnterminatedString.
Proof.
  intros Hrem Hfuel. unfold parseString.
  destruct (next_cons _ _ _ Hrem) as [-> Hrem'].
  rewrite (parseString_loop_result body q [] _ fuel Hrem' Hfuel).
  destruct (existsb _ _); [|reflexivity].
  now rewrite advance_advance.
Qed.

(** X6.  [parseString] takes the character under the cursor as the quote
    and returns what is written for the text up to the next occurrence of
    that character, leaving the cursor behind it; it fails with the
    unterminated-string error exactly when the quote does not recur before
    the end of the input or the first NUL byte, and also when it is called
    at the end of the input. *)
Theorem parseString_result (l : Lexer) (fuel : nat) :
  (forall q body,
     remaining l = q :: body ->
     length body < fuel ->
     parseString fuel l
     = if existsb (fun c => Ascii.eqb c q) (upTo zero body)
       then Ok (written (upTo q body) [],
                advance l (S (S (length (upTo q body)))))
       else Err ErrUnterminatedString) /\
  (remaining l = [] -> 0 < fuel ->
   parseString fuel l = Err ErrUnterminatedString).
Proof.
  split.
  - intros q body. apply parseString_quoted.
  - intros Hrem Hfuel. unfold parseString. rewrite (next_nil _ Hrem).
    destruct fuel as [|fuel]; [lia|]. cbn [parseString_loop].
    now rewrite (next_nil _ Hrem), Ascii.eqb_refl.
Qed.

Lemma parseTableName_found (l : Lexer) (a : str) (q : ascii) (body : str)
    (fuel : nat) :
  remaining l = a ++ q :: body ->
  forallb notQuote a = true ->
  notQuote q = false ->
  length (remaining l) < fuel ->
  parseTableName fuel l
  = if existsb (fun c => Ascii.eqb c q) (upTo zero body)
    then Ok (written (upTo q body) [],
             advance l (length a + S (S (length (upTo q body)))))
    else Err ErrUnterminatedString.
Proof.
  intros Hrem Ha Hq Hfuel.
  assert (Hlen : length (remaining l) = length a + S (length body))
    by (rewrite Hrem, length_app; reflexivity).
  unfold parseTableName.
  rewrite (skipWhile_found notQuote a l q body fuel Hrem Ha Hq) by lia.
  cbn [bind].
  assert (Hrem1 : remaining (advance l (length a)) = q :: body).
  { rewrite remaining_advance, Hrem.
    now rewrite skipn_app, skipn_all, Nat.sub_diag. }
  rewrite (parseString_quoted _ fuel q body Hrem1) by lia.
  destruct (existsb _ _); [|reflexivity]. now rewrite advance_advance.
Qed.

(** X7.  When a quote character is left to read, [parseTableName] returns
    what stands between the first quote character (backtick, double quote
    or single quote) and the next occurrence of that same character, or
    the unterminated-string error when it does not recur before the end
    of the input or a NUL byte. *)
Theorem parseTableName_result (l : Lexer) (a : str) (q : ascii) (body : str)
    (fuel : nat) :
  remaining l = a ++ q :: body ->
  forallb notQuote a = true ->
  notQuote q = false ->
  length (remaining l) < fuel ->
  parseTableName fuel l
  = if existsb (fun c => Ascii.eqb c q) (upTo zero body)
    then Ok (written (upTo q body) [],
             advance l (length a + S (S (length (upTo q body)))))
    else Err ErrUnterminatedString.
Proof. apply parseTableName_found. Qed.

Lemma identRune_test r :
  negb (IsLetter r) && negb (IsDigit r) && negb (Ascii.eqb r "_")
  = negb (identRune r).
Proof. unfold identRune. now rewrite !negb_orb. Qed.

Lemma parseIdentifier_loop_result : forall s result l fuel,
  remaining l = s ->
  length s < fuel ->
  parseIdentifier_loop fuel result l
  = Ok (written (takeWhile identRune s) result,
        advance l (length (takeWhile identRune s))).
Proof.
  induction s as [|c s IH]; intros result l fuel Hrem Hfuel;
    (destruct fuel as [|fuel]; [simpl in Hfuel; lia|]);
    cbn [parseIdentifier_loop]; rewrite identRune_test.
  - rewrite (peek_nil _ Hrem). cbn. now rewrite advance_0.
  - rewrite (peek_cons _ _ _ Hrem). cbn [takeWhile].
    destruct (identRune c); cbn [negb].
    + destruct (next_cons _ _ _ Hrem) as [-> Hrem'].
      simpl in Hfuel. rewrite (IH _ (advance l 1) fuel Hrem') by lia.
      rewrite advance_advance. reflexivity.
    + cbn. now rewrite advance_0.
Qed.

(** X8.  [parseIdentifier] never fails and never loops: it returns what is
    written for the longest run of letters, digits and underscores under
    the cursor (nothing when there is none), and leaves the cursor on the
    first character that is none of these, or at the end of the input. *)
Theorem parseIdentifier_result (l : Lexer) (fuel : nat) :
  length (remaining l) < fuel ->
  parseIdentifier fuel l
  = Ok (written (takeWhile identRune (remaining l)) [],
        advance l (length (takeWhile identRune (remaining l)))) /\
  identRune (peek (advance l (length (takeWhile identRune (remaining l)))))
  = false.
Proof.
  intros Hfuel. split.
  - now apply parseIdentifier_loop_result.
  - assert (H : forall s, exists rest,
              s = takeWhile identRune s ++ rest /\
              match rest with [] => True | c :: _ => identRune c = false end).
    { induction s as [|c s [rest [E Hr]]]; [now exists []|].
      cbn [takeWhile]. destruct (identRune c) eqn:Hc.
      - exists rest. split; [simpl; now rewrite <- E | exact Hr].
      - now exists (c :: s). }
    destruct (H (remaining l)) as (rest & E & Hr).
    assert (Hrem : remaining (advance l (length (takeWhile identRune (remaining l))))
                   = rest).
    { rewrite remaining_advance. rewrite E at 2.
      now rewrite skipn_app, skipn_all, Nat.sub_diag. }
    destruct rest as [|c rest].
    + now rewrite (peek_nil _ Hrem).
    + now rewrite (peek_cons _ _ _ Hrem).
Qed.

End Extraction.

(* ================================================================= *)
(** ** The cursor *)

Section Cursor.
Context {U : GoUnicode}.

Lemma Later_refl l : Later l l.
Proof. unfold Later. auto. Qed.

Lemma Later_trans l1 l2 l3 : Later l1 l2 -> Later l2 l3 -> Later l1 l3.
Proof.
  unfold Later. intros (E1 & H1 & B1) (E2 & H2 & B2).
  split; [congruence | split; [lia|]].
  intros H. rewrite E1 in B2. apply B2, B1, H.
Qed.

Lemma Later_next l : Later l (snd (next l)).
Proof.
  unfold Later, next. destruct (Nat.leb_spec (length (input l)) (pos l));
    cbn [snd input pos]; repeat split; lia.
Qed.

Lemma skipWhile_Later cond : forall fuel l l',
  skipWhile cond fuel l = Ok l' -> Later l l'.
Proof.
  induction fuel as [|fuel IH]; intros l l' H; [discriminate|].
  cbn [skipWhile] in H. destruct (cond (peek l)).
  - eapply Later_trans; [apply Later_next | now apply IH].
  - inversion H; subst. apply Later_refl.
Qed.

Lemma parseString_loop_Later : forall fuel q acc l n l',
  parseString_loop fuel q acc l = Ok (n, l') -> Later l l'.
Proof.
  induction fuel as [|fuel IH]; intros q acc l n l' H; [discriminate|].
  cbn [parseString_loop] in H. pose proof (Later_next l) as Hn.
  destruct (next l) as [c l1]. cbn [snd] in Hn.
  destruct (Ascii.eqb c zero); [discriminate|].
  destruct (Ascii.eqb c q).
  - inversion H; subst. exact Hn.
  - eapply Later_trans; [exact Hn | eapply IH; exact H].
Qed.

Lemma parseIdentifier_loop_Later : forall fuel acc l n l',
  parseIdentifier_loop fuel acc l = Ok (n, l') -> Later l l'.
Proof.
  induction fuel as [|fuel IH]; intros acc l n l' H; [discriminate|].
  cbn [parseIdentifier_loop] in H.
  destruct (negb (IsLetter (peek l)) && _ && _).
  - inversion H; subst. apply Later_refl.
  - pose proof (Later_next l) as Hn. destruct (next l) as [c l1].
    eapply Later_trans; [exact Hn | eapply IH; exact H].
Qed.

Lemma parseTableFields_loop_Later : forall fuel l lv fs cur fs' l',
  parseTableFields_loop fuel l lv fs cur = Ok (fs', l') -> Later l l'.
Proof.
  induction fuel as [|fuel IH]; intros l lv fs cur fs' l' H; [discriminate|].
  cbn [parseTableFields_loop] in H.
  destruct (lv =? 0); [inversion H; subst; apply Later_refl|].
  pose proof (Later_next l) as Hn. destruct (next l) as [c l1]. cbn [snd] in Hn.
  destruct (Ascii.eqb c zero); [discriminate|].
  destruct (Ascii.eqb c "(");
    [eapply Later_trans; [exact Hn | eapply IH; exact H]|].
  destruct (Ascii.eqb c ")").
  { destruct (pred lv =? 0).
    - inversion H; subst. exact Hn.
    - eapply Later_trans; [exact Hn | eapply IH; exact H]. }
  destruct (Ascii.eqb c "," && (lv =? 1));
    eapply Later_trans; try exact Hn; eapply IH; exact H.
Qed.

(** X9.  Whatever a routine of the Scanner or of the statement parser
    returns, it returns it with the same input and with a cursor that has
    not moved back and has not left the input. *)
Theorem cursor_only_moves_forward (fuel : nat) (l l' : Lexer) :
  (forall n, parseString fuel l = Ok (n, l') -> Later l l') /\
  (forall n, parseIdentifier fuel l = Ok (n, l') -> Later l l') /\
  (forall n, parseTableName fuel l = Ok (n, l') -> Later l l') /\
  (forall fs, parseTableFields fuel l = Ok (fs, l') -> Later l l').
Proof.
  split; [|split; [|split]].
  - intros n H. unfold parseString in H. pose proof (Later_next l) as Hn.
    destruct (next l) as [q l1]. cbn [snd] in Hn.
    apply parseString_loop_Later in H. apply (Later_trans _ _ _ Hn H).
  - intros n H. unfold parseIdentifier in H.
    now apply parseIdentifier_loop_Later in H.
  - intros n H. unfold parseTableName in H.
    destruct (skipWhile notQuote fuel l) as [l1| |] eqn:Hs; try discriminate.
    cbn [bind] in H. apply skipWhile_Later in Hs. unfold parseString in H.
    pose proof (Later_next l1) as Hn. destruct (next l1) as [q l2].
    cbn [snd] in Hn. apply parseString_loop_Later in H.
    apply (Later_trans _ _ _ (Later_trans _ _ _ Hs Hn) H).
  - intros fs H. unfold parseTableFields in H.
    destruct (skipWhile notOpen fuel l) as [l1| |] eqn:Hs; try discriminate.
    cbn [bind] in H. apply skipWhile_Later in Hs.
    apply parseTableFields_loop_Later in H.
    apply (Later_trans _ _ _ (Later_trans _ _ _ Hs (Later_next l1)) H).
Qed.

End Cursor.

(* ================================================================= *)
(** ** The fields the statement parser returns *)

Section ReturnedFields.
Context {U : GoUnicode}.

Lemma scan_depth : forall f d d',
  scan d f = Some d' ->
  Z.of_nat d' = (Z.of_nat d + depth f)%Z /\ ~ In zero f.
Proof.
  induction f as [|c f IH]; intros d d' H.
  - inversion H; subst. simpl. split; [lia | tauto].
  - cbn [scan] in H. cbn [depth]. unfold delta.
    destruct (Ascii.eqb_spec c zero) as [|Hz]; [discriminate|].
    assert (Hin : forall P : Prop, (~ In zero f -> P) -> (~ In zero f) ->
                  ~ In zero (c :: f) /\ P).
    { intros P HP Hn. split; [|now apply HP].
      intros [E|E]; [now apply Hz | now apply Hn]. }
    destruct (Ascii.eqb c "(").
    { apply IH in H as [H1 H2]. split; [lia|]. intros [E|E]; auto. }
    destruct (Ascii.eqb c ")").
    { destruct d as [|d]; [discriminate|].
      apply IH in H as [H1 H2]. split; [lia|]. intros [E|E]; auto. }
    destruct (Ascii.eqb c ",").
    { destruct d as [|d]; [discriminate|].
      apply IH in H as [H1 H2]. split; [lia|]. intros [E|E]; auto. }
    apply IH in H as [H1 H2]. split; [lia|]. intros [E|E]; auto.
Qed.

(** X10.  Every field that [parseTableFields] returns for an ASCII input
    has as many closing as opening parentheses, holds no NUL byte, is
    ASCII, and has no white space at either end ([TrimSpace] leaves it as
    it is). *)
Theorem returned_fields_are_balanced_and_trimmed (fuel : nat) (l l' : Lexer)
    (fs : list str) :
  isASCII (input l) = true ->
  parseTableFields fuel l = Ok (fs, l') ->
  Forall (fun f => depth f = 0%Z /\ ~ In zero f /\
                   isASCII f = true /\ strings.TrimSpace f = f) fs.
Proof.
  intros Hin H. apply (parseTableFields_stores fuel l fs l' Hin) in H.
  eapply Forall_impl; [|exact H].
  intros f (He & Ha & Ht). apply scan_depth in He as [Hd Hz].
  simpl in Hd. split; [lia | auto].
Qed.

End ReturnedFields.

(* ================================================================= *)
(** ** The driver over several statements *)

Section Driver.
Context {U : GoUnicode}.
Import strings.

Lemma parseDDL_loop_app fuel : forall a b result,
  parseDDL_loop fuel (a ++ b) result
  = bind (parseDDL_loop fuel a result) (parseDDL_loop fuel b).
Proof.
  induction a as [|s a IH]; intros b result; [reflexivity|].
  cbn [app parseDDL_loop].
  destruct (HasPrefix (ToUpper s) createTablePrefix).
  - destruct (parseTableName fuel (newLexer s)) as [[n l1]| |];
      cbn [bind]; try reflexivity.
    destruct (parseTableFields fuel l1) as [[fs l2]| |];
      cbn [bind]; try reflexivity.
    apply IH.
  - destruct (HasPrefix (ToUpper s) createIndexPrefix); [apply IH | reflexivity].
Qed.

Lemma parseDDL_loop_table fuel s result result' :
  HasPrefix (ToUpper s) createTablePrefix = true ->
  parseDDL_loop fuel [s] result = parseDDL_loop fuel [s] result'.
Proof.
  intros H. cbn [parseDDL_loop]. now rewrite H.
Qed.

Lemma parseDDL_loop_skips fuel : forall strs result,
  parseDDL_loop fuel strs result
  = parseDDL_loop fuel (filter (fun s => negb (isIndexStatement s)) strs) result.
Proof.
  induction strs as [|s strs IH]; intros result; [reflexivity|].
  cbn [filter]. unfold isIndexStatement at 1.
  destruct (HasPrefix (ToUpper s) createTablePrefix) eqn:Ht; cbn [negb andb].
  - cbn [parseDDL_loop]. rewrite Ht.
    destruct (parseTableName fuel (newLexer s)) as [[n l1]| |];
      cbn [bind]; try reflexivity.
    destruct (parseTableFields fuel l1) as [[fs l2]| |];
      cbn [bind]; try reflexivity.
    apply IH.
  - destruct (HasPrefix (ToUpper s) createIndexPrefix) eqn:Hi; cbn [negb].
    + cbn [parseDDL_loop]. rewrite Ht, Hi. apply IH.
    + cbn [parseDDL_loop]. now rewrite Ht, Hi.
Qed.

(** X11.  [CREATE INDEX] statements do not count: [parseDDL] gives for a
    list of statements what it gives for the list without them.  A list
    of nothing but [CREATE INDEX] statements, the empty list among them,
    gives the empty model, which compiles to the empty text. *)
Theorem parseDDL_skips_index_statements (fuel : nat) (strs : list str) :
  parseDDL fuel strs
  = parseDDL fuel (filter (fun s => negb (isIndexStatement s)) strs) /\
  (forallb isIndexStatement strs = true ->
   parseDDL fuel strs = Ok (mkDdl [] [] []) /\ compile (mkDdl [] [] []) = []).
Proof.
  split; [apply parseDDL_loop_skips|].
  intros Hall. split; [|reflexivity].
  unfold parseDDL. rewrite parseDDL_loop_skips.
  replace (filter (fun s => negb (isIndexStatement s)) strs) with (@nil str);
    [reflexivity|].
  induction strs as [|s strs IH]; [reflexivity|].
  simpl in Hall. apply andb_prop in Hall as [Hs Hr].
  cbn [filter]. rewrite Hs. cbn [negb]. now apply IH.
Qed.

(** X12.  Of several [CREATE TABLE] statements the last one decides: when
    the statements before it are accepted, the result for the whole list,
    model or error, is the result for the last statement alone. *)
Theorem last_table_statement_wins (fuel : nat) (strs : list str) (s : str)
    (d0 : ddl) :
  parseDDL fuel strs = Ok d0 ->
  HasPrefix (ToUpper s) createTablePrefix = true ->
  parseDDL fuel (strs ++ [s]) = parseDDL fuel [s].
Proof.
  unfold parseDDL. intros H0 Hs.
  rewrite parseDDL_loop_app, H0. cbn [bind].
  now apply parseDDL_loop_table.
Qed.

(** X13.  The driver stops at the first statement it cannot take: an
    error on the statements read so far is the result whatever follows,
    and a statement that is neither [CREATE TABLE] nor [CREATE INDEX],
    after statements that were accepted, gives the invalid-DDL error
    whatever follows. *)
Theorem parseDDL_stops_at_first_error (fuel : nat) (strs more : list str) :
  (forall e, parseDDL fuel strs = Err e ->
             parseDDL fuel (strs ++ more) = Err e) /\
  (forall d0 s,
     parseDDL fuel strs = Ok d0 ->
     HasPrefix (ToUpper s) createTablePrefix = false ->
     HasPrefix (ToUpper s) createIndexPrefix = false ->
     parseDDL fuel (strs ++ s :: more) = Err ErrInvalidDDL).
Proof.
  unfold parseDDL. split.
  - intros e H. now rewrite parseDDL_loop_app, H.
  - intros d0 s H Ht Hi. rewrite parseDDL_loop_app, H. cbn [bind parseDDL_loop].
    now rewrite Ht, Hi.
Qed.

End Driver.

(* ================================================================= *)
(** ** Column names *)

Section ColumnNames.
Context {U : GoUnicode}.
Import strings.

Lemma trimLeftASCII_split cs : forall s,
  exists w,
    s = w ++ trimLeftASCII s cs /\ forallb (inCutset cs) w = true /\
    match trimLeftASCII s cs with
    | [] => True
    | c :: _ => inCutset cs c = false
    end.
Proof.
  induction s as [|c s (w & E & Hw & Hhd)]; [now exists []|].
  cbn [trimLeftASCII]. destruct (inCutset cs c) eqn:Hc.
  - exists (c :: w). repeat split; [simpl; now rewrite <- E | | exact Hhd].
    simpl. now rewrite Hc, Hw.
  - exists []. repeat split. exact Hc.
Qed.

Lemma forallb_rev (p : ascii -> bool) (w : str) :
  forallb p w = true -> forallb p (rev w) = true.
Proof.
  rewrite !forallb_forall. intros H x Hx. apply H. now apply in_rev.
Qed.

(** [strings.Trim] removes characters of the cutset at the two ends and
    stops, at each end, at the first character that is not in it. *)
Lemma Trim_split s cs :
  exists w1 w2,
    s = w1 ++ Trim s cs ++ w2 /\
    forallb (inCutset cs) w1 = true /\ forallb (inCutset cs) w2 = true /\
    match Trim s cs with [] => True | c :: _ => inCutset cs c = false end /\
    match rev (Trim s cs) with [] => True | c :: _ => inCutset cs c = false end.
Proof.
  unfold Trim, TrimRight.
  destruct (trimLeftASCII_split cs (rev s)) as (w2 & E2 & Hw2 & Hhd2).
  set (r := trimLeftASCII (rev s) cs) in *.
  destruct (trimLeftASCII_split cs (rev r)) as (w1 & E1 & Hw1 & Hhd1).
  set (t := trimLeftASCII (rev r) cs) in *.
  exists w1, (rev w2). split; [|split; [exact Hw1 | split; [now apply forallb_rev|]]].
  - rewrite app_assoc, <- E1, <- rev_app_distr, <- E2. now rewrite rev_involutive.
  - split; [exact Hhd1|].
    destruct (rev t) as [|c t'] eqn:Et; [exact I|].
    assert (Er : r = c :: t' ++ rev w1).
    { rewrite <- (rev_involutive r), E1, rev_app_distr, Et. reflexivity. }
    rewrite Er in Hhd2. exact Hhd2.
Qed.

(** X14.  The name of a column descriptor is the first token of its field
    without the quote characters at its two ends: it neither starts nor
    ends with a backtick, a single quote or a double quote. *)
Theorem descriptor_name_is_unquoted (field : str) (column : ColumnType) :
  parseColumn field = Some column ->
  exists tok more w1 w2,
    Fields (TrimSpace field) = tok :: more /\
    tok = w1 ++ sql.String_ (NameValue column) ++ w2 /\
    forallb (inCutset quoteChars) w1 = true /\
    forallb (inCutset quoteChars) w2 = true /\
    match sql.String_ (NameValue column) with
    | [] => True
    | c :: _ => inCutset quoteChars c = false
    end /\
    match rev (sql.String_ (NameValue column)) with
    | [] => True
    | c :: _ => inCutset quoteChars c = false
    end.
Proof.
  unfold parseColumn. intros H.
  destruct (isClause (TrimSpace field)); [discriminate|].
  destruct (Fields (TrimSpace field)) as [|tok [|ty attrs]]; try discriminate.
  destruct (lengthOf ty) as [len base]. inversion H; subst column. clear H.
  cbn [NameValue sql.String_].
  destruct (Trim_split tok quoteChars) as (w1 & w2 & E & H1 & H2 & H3 & H4).
  exists tok, (ty :: attrs), w1, w2. repeat split; assumption.
Qed.

(** X15.  [getColumns] and the column interpreter agree on names: a field
    that has a descriptor and is not a generated column is listed by
    [getColumns] under the descriptor's name, backtick-quoted; and when no
    field is a generated column and every field is a clause or has at
    least two tokens, [getColumns] is the list of the descriptors' names,
    in order. *)
Theorem getColumns_lists_descriptor_names :
  (forall field column,
     parseColumn field = Some column ->
     Contains (ToUpper (TrimSpace field)) (bytes "GENERATED ALWAYS AS") = false ->
     getColumn field = Some (backquoted (sql.String_ (NameValue column)))) /\
  (forall d,
     Forall (fun f =>
               Contains (ToUpper (TrimSpace f)) (bytes "GENERATED ALWAYS AS")
               = false /\
               (isClause (TrimSpace f) = true \/
                exists name ty attrs,
                  Fields (TrimSpace f) = name :: ty :: attrs)) (fields d) ->
     getColumns d
     = map (fun column => backquoted (sql.String_ (NameValue column)))
           (parseColumns (fields d))).
Proof.
  assert (Hone : forall field column,
     parseColumn field = Some column ->
     Contains (ToUpper (TrimSpace field)) (bytes "GENERATED ALWAYS AS") = false ->
     getColumn field = Some (backquoted (sql.String_ (NameValue column)))).
  { unfold parseColumn, getColumn. intros field column H Hgen.
    destruct (isClause (TrimSpace field)); [discriminate|].
    rewrite Hgen. cbn [orb].
    destruct (Fields (TrimSpace field)) as [|tok [|ty attrs]]; try discriminate.
    destruct (lengthOf ty) as [len base]. inversion H; subst column.
    reflexivity. }
  split; [exact Hone|].
  intros d. unfold getColumns. induction (fields d) as [|f fs IH]; intros Hall;
    [reflexivity|].
  inversion Hall as [|? ? [Hgen Hshape] Hfs]; subst. cbn [getColumns_loop parseColumns].
  destruct (parseColumn f) as [column|] eqn:Hc.
  - rewrite (Hone f column Hc Hgen). cbn [map]. f_equal. now apply IH.
  - assert (Hg : getColumn f = None).
    { unfold parseColumn in Hc. unfold getColumn.
      destruct Hshape as [Hcl|(name & ty & attrs & Hf)].
      - now rewrite Hcl.
      - destruct (isClause (TrimSpace f)); [reflexivity|].
        rewrite Hf in Hc. destruct (lengthOf ty). discriminate. }
    rewrite Hg. now apply IH.
Qed.

(** X16.  A column entry of exactly two tokens gets the defaults of every
    attribute: nullable, not unique, not a primary key, no default value;
    its column type is the second token as written. *)
Theorem two_token_column_has_default_attributes (field name ty : str) :
  isClause (TrimSpace field) = false ->
  Fields (TrimSpace field) = [name; ty] ->
  exists column,
    parseColumn field = Some column /\
    NullableValue column = sql.mkNullBool true true /\
    UniqueValue column = sql.mkNullBool false true /\
    PrimaryKeyValue column = sql.mkNullBool false true /\
    DefaultValueValue column = sql.mkNullString [] false /\
    ColumnTypeValue column = sql.mkNullString ty true.
Proof.
  intros Hclause Hfields. unfold parseColumn. rewrite Hclause, Hfields.
  destruct (lengthOf ty) as [len base]. eexists. repeat split.
Qed.

End ColumnNames.

(* ================================================================= *)
(** ** Writing into lists and backing arrays *)

Section Stores.
Variable A : Type.
Implicit Types (l : list A) (x d : A).

Lemma length_store : forall l i x, length (store l i x) = length l.
Proof.
  induction l as [|y l IH]; intros [|i] x; simpl; auto.
Qed.

Lemma nth_store_same : forall l i x d, i < length l -> nth i (store l i x) d = x.
Proof.
  induction l as [|y l IH]; intros [|i] x d H; simpl in *; try lia; auto.
  apply IH. lia.
Qed.

Lemma nth_store_other : forall l i j x d, i <> j -> nth j (store l i x) d = nth j l d.
Proof.
  induction l as [|y l IH]; intros [|i] [|j] x d H; simpl; auto; try lia.
Qed.

Lemma firstn_store : forall l n i x,
  firstn n (store l i x) = store (firstn n l) i x.
Proof.
  induction l as [|y l IH]; intros [|n] [|i] x; simpl; auto.
  now rewrite IH.
Qed.

Lemma store_middle : forall before f after x,
  store (before ++ f :: after) (length before) x = before ++ x :: after.
Proof.
  induction before as [|y before IH]; intros f after x; simpl; auto.
  now rewrite IH.
Qed.

Lemma firstn_S_store : forall l n x,
  n < length l -> firstn (S n) (store l n x) = firstn n l ++ [x].
Proof.
  induction l as [|y l IH]; intros [|n] x H; simpl in *; try lia; auto.
  rewrite IH by lia. reflexivity.
Qed.

Lemma firstn_length_app : forall l r, firstn (length l) (l ++ r) = l.
Proof.
  intros l r. rewrite firstn_app, firstn_all, Nat.sub_diag. simpl.
  apply app_nil_r.
Qed.

Lemma nth_length_app : forall l x d, nth (length l) (l ++ [x]) d = x.
Proof.
  intros l x d. rewrite app_nth2, Nat.sub_diag by lia. reflexivity.
Qed.

End Stores.

Arguments length_store {A}.
Arguments nth_store_same {A}.
Arguments nth_store_other {A}.
Arguments firstn_store {A}.
Arguments store_middle {A}.
Arguments firstn_S_store {A}.
Arguments firstn_length_app {A}.
Arguments nth_length_app {A}.

Lemma firstIndex_found p : forall before f after k,
  Forall (fun x => p x = false) before ->
  p f = true ->
  firstIndex p (before ++ f :: after) k = Some (k + length before).
Proof.
  induction before as [|y before IH]; intros f after k Hb Hf; simpl.
  - rewrite Hf. f_equal. lia.
  - inversion Hb as [|? ? Hy Hb']; subst. rewrite Hy, IH by assumption.
    f_equal. lia.
Qed.

Lemma firstIndex_missing p : forall fs k,
  Forall (fun x => p x = false) fs -> firstIndex p fs k = None.
Proof.
  induction fs as [|y fs IH]; intros k H; simpl; [reflexivity|].
  inversion H as [|? ? Hy H']; subst. rewrite Hy. now apply IH.
Qed.

Lemma first_split (p : str -> bool) : forall fs,
  Forall (fun x => p x = false) fs \/
  exists before f after,
    fs = before ++ f :: after /\
    Forall (fun x => p x = false) before /\ p f = true.
Proof.
  induction fs as [|y fs IH]; [left; constructor|].
  destruct (p y) eqn:Hy.
  - right. exists [], y, fs. split; [reflexivity | split; [constructor | exact Hy]].
  - destruct IH as [IH|(before & f & after & -> & Hb & Hf)].
    + left. now constructor.
    + right. exists (y :: before), f, after.
      split; [reflexivity | split; [now constructor | exact Hf]].
Qed.

(* ================================================================= *)
(** ** Edits in memory *)

Section InMemoryEdits.
Context {U : GoUnicode}.
Variable spare : nat -> nat.

Lemma elems_length h s : len s <= cap h s -> length (elems h s) = len s.
Proof. intros H. unfold elems. apply firstn_length_le. exact H. Qed.

Lemma backing_store h s a' n :
  arr s < length h -> backing (store h (arr s) a') (mkSlice (arr s) n) = a'.
Proof. intros H. unfold backing. cbn [arr]. now apply nth_store_same. Qed.

Lemma Footprint_in_place h d a' n :
  wf h d -> n <= length a' ->
  Footprint h d (store h (arr (vfields d)) a')
            (mkDdlVar (vhead d) (mkSlice (arr (vfields d)) n) (vcolumns d)).
Proof.
  intros [Harr Hlen] Hn. unfold Footprint, wf, cap. cbn [vfields arr len].
  rewrite length_store, backing_store by exact Harr.
  repeat split; auto.
  intros id Hid Hne. apply nth_store_other. congruence.
Qed.

Lemma Footprint_refl h d : wf h d -> Footprint h d h d.
Proof. intros H. unfold Footprint. repeat split; auto; apply H. Qed.

(** [d.fields[i] = sql] *)
Lemma assign_step h d before f after sql :
  wf h d ->
  elems h (vfields d) = before ++ f :: after ->
  let h' := store h (arr (vfields d))
                  (store (backing h (vfields d)) (length before) sql) in
  elems h' (vfields d) = before ++ sql :: after /\ Footprint h d h' d.
Proof.
  destruct d as [hd [id n] cols]. intros Hwf E h'.
  pose proof Hwf as [Harr Hlen]. cbn [vfields arr len] in *. split.
  - unfold elems. subst h'. cbn [len].
    rewrite (backing_store h (mkSlice id n)) by exact Harr.
    rewrite firstn_store. unfold elems in E. cbn [len] in E. rewrite E.
    apply store_middle.
  - subst h'.
    apply (Footprint_in_place h (mkDdlVar hd (mkSlice id n) cols) _ n Hwf).
    rewrite length_store. exact Hlen.
Qed.

(** [append(d.fields, sql)] *)
Lemma appendOne_step h d sql :
  wf h d ->
  exists h' s',
    appendOne spare h (vfields d) sql = (h', s') /\
    elems h' s' = elems h (vfields d) ++ [sql] /\
    Footprint h d h' (mkDdlVar (vhead d) s' (vcolumns d)).
Proof.
  intros Hwf. pose proof Hwf as [Harr Hlen]. unfold appendOne.
  destruct (Nat.ltb_spec (len (vfields d)) (cap h (vfields d))) as [Hlt|Hge].
  - eexists. eexists. split; [reflexivity|]. split.
    + unfold elems. cbn [len].
      rewrite (backing_store h (vfields d)) by exact Harr.
      now apply firstn_S_store.
    + apply Footprint_in_place; [exact Hwf|]. rewrite length_store. exact Hlt.
  - eexists. eexists. split; [reflexivity|].
    assert (Hb : backing (h ++ [elems h (vfields d) ++
                                 sql :: repeat [] (spare (S (len (vfields d))))])
                         (mkSlice (length h) (S (len (vfields d))))
                 = elems h (vfields d) ++
                   sql :: repeat [] (spare (S (len (vfields d))))).
    { unfold backing. cbn [arr]. apply nth_length_app. }
    split.
    + unfold elems at 1. cbn [len]. rewrite Hb.
      change (elems h (vfields d) ++ sql :: repeat [] (spare (S (len (vfields d)))))
        with (elems h (vfields d) ++ [sql] ++ repeat [] (spare (S (len (vfields d))))).
      rewrite app_assoc.
      replace (S (len (vfields d))) with (length (elems h (vfields d) ++ [sql])) at 1
        by (rewrite length_app, elems_length by exact Hlen; simpl; lia).
      apply firstn_length_app.
    + unfold Footprint, wf, cap. cbn [vfields arr len]. rewrite Hb.
      rewrite !length_app. cbn [length]. rewrite elems_length by exact Hlen.
      split; [split; lia|]. split; [lia|]. split; [|right; lia].
      intros id Hid _. now apply app_nth1.
Qed.

(** [append(d.fields[:i], d.fields[i+1:]...)] *)
Lemma deleteAt_step h d before f after :
  wf h d ->
  elems h (vfields d) = before ++ f :: after ->
  exists h' s',
    deleteAt h (vfields d) (length before) = (h', s') /\
    elems h' s' = before ++ after /\
    Footprint h d h' (mkDdlVar (vhead d) s' (vcolumns d)) /\
    elems h' (vfields d) = before ++ after ++ [last (f :: after) []].
Proof.
  destruct d as [hd [id n] cols]. intros Hwf E.
  pose proof Hwf as [Harr Hlen]. cbn [vfields arr len] in *.
  unfold deleteAt. cbn [arr len].
  assert (Hn : n = length before + S (length after)).
  { pose proof (elems_length h (mkSlice id n) Hlen) as Hl. cbn [len] in Hl.
    rewrite E, length_app in Hl. simpl in Hl. lia. }
  unfold elems in E. cbn [len] in E. unfold cap in Hlen.
  set (a := backing h (mkSlice id n)) in *.
  assert (H1 : firstn (length before) a = before).
  { replace (length before) with (Nat.min (length before) n) by lia.
    rewrite <- firstn_firstn, E. apply firstn_length_app. }
  assert (H2 : skipn (S (length before)) (firstn n a) = after).
  { rewrite E.
    replace (S (length before)) with (length (before ++ [f]))
      by (rewrite length_app; simpl; lia).
    change (before ++ f :: after) with (before ++ [f] ++ after).
    rewrite app_assoc, skipn_app, skipn_all, Nat.sub_diag. reflexivity. }
  rewrite H1, H2.
  assert (Hla : length (before ++ after) = n - 1) by (rewrite length_app; lia).
  assert (Hlen' : length (before ++ after ++ skipn (n - 1) a) = length a).
  { rewrite app_assoc, length_app, Hla, length_skipn. lia. }
  eexists. eexists. split; [reflexivity|]. split; [|split].
  - unfold elems. cbn [len].
    rewrite (backing_store h (mkSlice id n)) by exact Harr.
    rewrite app_assoc, <- Hla. apply firstn_length_app.
  - apply (Footprint_in_place h (mkDdlVar hd (mkSlice id n) cols) _ (n - 1) Hwf).
    rewrite Hlen'. lia.
  - unfold elems. cbn [len].
    rewrite (backing_store h (mkSlice id n)) by exact Harr.
    (* the element at [n - 1] is the last of the old elements *)
    assert (Hlast : firstn 1 (skipn (n - 1) a) = [last (f :: after) []]).
    { assert (Hs : skipn (n - 1) (firstn n a) = [last (f :: after) []]).
      { rewrite E.
        destruct (@exists_last _ (f :: after) ltac:(discriminate)) as (m & x & Ex).
        rewrite Ex, last_last, app_assoc.
        replace (n - 1) with (length (before ++ m)).
        - now rewrite skipn_app, skipn_all, Nat.sub_diag.
        - apply (f_equal (@length _)) in Ex. rewrite length_app in Ex.
          simpl in Ex. rewrite length_app. lia. }
      rewrite <- Hs. rewrite skipn_firstn_comm. f_equal. lia. }
    rewrite !app_assoc.
    replace n with (length (before ++ after) + 1) at 1 by lia.
    rewrite firstn_app_2, Hlast. reflexivity.
Qed.

End InMemoryEdits.

(* ================================================================= *)
(** ** Edits on model values, clones and shared copies *)

Section Clones.
Context {U : GoUnicode}.
Variable spare : nat -> nat.

Lemma not_constraint_named name fs :
  Forall (fun x => isConstraint name x = false) fs ->
  Forall (fun x => ~ ConstraintNamed name x) fs.
Proof.
  apply Forall_impl. intros x H. rewrite <- isConstraint_spec. congruence.
Qed.

Lemma not_names_column name fs :
  Forall (fun x => isColumn name x = false) fs ->
  Forall (fun x => ~ NamesColumn name x) fs.
Proof.
  apply Forall_impl. intros x H. rewrite <- isColumn_spec. congruence.
Qed.

Lemma applyEditV_step h d e :
  wf h d ->
  exists h' d',
    applyEditV spare h d e = (h', d') /\
    model_of h' d' = applyEdit (model_of h d) e /\
    Footprint h d h' d'.
Proof.
  intros Hwf. destruct e as [name sql|name|name|dst src]; cbn [applyEditV applyEdit].
  - (* addConstraint *)
    unfold addConstraintV, addConstraint, model_of. cbn [head fields columns].
    destruct (first_split (isConstraint name) (elems h (vfields d)))
      as [Hall|(before & f & after & E & Hb & Hf)].
    + rewrite (firstIndex_missing _ _ 0 Hall).
      destruct (appendOne_step spare h d sql Hwf) as (h' & s' & -> & Es & Hfp).
      exists h', (mkDdlVar (vhead d) s' (vcolumns d)).
      split; [reflexivity|]. split; [|exact Hfp]. cbn [vhead vfields vcolumns].
      rewrite Es, (addConstraint_loop_missing name sql _ []
                     (not_constraint_named _ _ Hall)).
      reflexivity.
    + rewrite E, (firstIndex_found _ before f after 0 Hb Hf). cbn [Nat.add].
      destruct (assign_step h d before f after sql Hwf E) as [Es Hfp].
      eexists. eexists. split; [reflexivity|]. split; [|exact Hfp].
      rewrite Es, (addConstraint_loop_found name sql before [] f after
                     (not_constraint_named _ _ Hb)
                     (proj1 (isConstraint_spec _ _) Hf)).
      reflexivity.
  - (* removeConstraint *)
    unfold removeConstraintV, removeConstraint, model_of. cbn [head fields columns].
    destruct (first_split (isConstraint name) (elems h (vfields d)))
      as [Hall|(before & f & after & E & Hb & Hf)].
    + rewrite (firstIndex_missing _ _ 0 Hall).
      rewrite (removeConstraint_loop_missing name _ []
                 (not_constraint_named _ _ Hall)).
      exists h, d. split; [reflexivity|]. split; [|now apply Footprint_refl].
      reflexivity.
    + rewrite E, (firstIndex_found _ before f after 0 Hb Hf). cbn [Nat.add].
      destruct (deleteAt_step h d before f after Hwf E)
        as (h' & s' & -> & Es & Hfp & _).
      rewrite (removeConstraint_loop_found name before [] f after
                 (not_constraint_named _ _ Hb)
                 (proj1 (isConstraint_spec _ _) Hf)).
      eexists. eexists. split; [reflexivity|]. split; [|exact Hfp].
      cbn [fst vhead vfields vcolumns app]. now rewrite Es.
  - (* removeColumn *)
    unfold removeColumnV, removeColumn, model_of. cbn [head fields columns].
    destruct (first_split (isColumn name) (elems h (vfields d)))
      as [Hall|(before & f & after & E & Hb & Hf)].
    + rewrite (firstIndex_missing _ _ 0 Hall).
      rewrite (removeColumn_loop_missing name _ []
                 (not_names_column _ _ Hall)).
      exists h, d. split; [reflexivity|]. split; [|now apply Footprint_refl].
      reflexivity.
    + rewrite E, (firstIndex_found _ before f after 0 Hb Hf). cbn [Nat.add].
      destruct (deleteAt_step h d before f after Hwf E)
        as (h' & s' & -> & Es & Hfp & _).
      rewrite (removeColumn_loop_found name before [] f after
                 (not_names_column _ _ Hb)
                 (proj1 (isColumn_spec _ _) Hf)).
      eexists. eexists. split; [reflexivity|]. split; [|exact Hfp].
      cbn [fst vhead vfields vcolumns app]. now rewrite Es.
  - (* renameTable *)
    eexists. eexists. split; [reflexivity|]. split.
    + unfold model_of, renameTable. cbn [head fields columns vhead vfields vcolumns].
      now destruct (str_eqb _ _).
    + destruct Hwf as [H1 H2]. unfold Footprint, wf. cbn [vfields].
      repeat split; auto.
Qed.

Lemma Footprint_trans h d h1 d1 h2 d2 :
  arr (vfields d) < length h ->
  Footprint h d h1 d1 -> Footprint h1 d1 h2 d2 -> Footprint h d h2 d2.
Proof.
  intros Harr (W1 & L1 & F1 & A1) (W2 & L2 & F2 & A2).
  split; [exact W2|]. split; [lia|]. split.
  - intros id Hid Hne. rewrite F2, F1; auto; [lia|].
    destruct A1 as [A1|A1]; [congruence | lia].
  - destruct A2 as [A2|A2]; [|right; lia].
    destruct A1 as [A1|A1]; [left; congruence | right; lia].
Qed.

Lemma applyEditsV_steps : forall es h d,
  wf h d ->
  exists h' d',
    applyEditsV spare h d es = (h', d') /\
    model_of h' d' = applyEdits (model_of h d) es /\
    Footprint h d h' d'.
Proof.
  induction es as [|e es IH]; intros h d Hwf.
  - exists h, d.
    split; [reflexivity | split; [reflexivity | now apply Footprint_refl]].
  - destruct (applyEditV_step h d e Hwf) as (h1 & d1 & E1 & M1 & F1).
    destruct (IH h1 d1 (proj1 F1)) as (h2 & d2 & E2 & M2 & F2).
    exists h2, d2. cbn [applyEditsV]. rewrite E1. split; [exact E2|].
    split.
    + unfold applyEdits in *. cbn [fold_left]. now rewrite <- M1.
    + apply (Footprint_trans h d h1 d1 h2 d2 (proj1 Hwf) F1 F2).
Qed.

Lemma Separate_step h d c h' c' :
  Separate h d c -> Footprint h c h' c' ->
  Separate h' d c' /\ model_of h' d = model_of h d.
Proof.
  intros ((Hd1 & Hd2) & (Hc1 & Hc2) & Hne) (W & L & F & A).
  assert (Hb : backing h' (vfields d) = backing h (vfields d))
    by (unfold backing; now apply F).
  split; [split; [|split]|].
  - split; [lia|]. unfold cap. now rewrite Hb.
  - exact W.
  - destruct A as [A|A]; [congruence | lia].
  - unfold model_of, elems. now rewrite Hb.
Qed.

Lemma cloneV_Separate h d :
  wf h d ->
  Separate (fst (cloneV h d)) d (snd (cloneV h d)) /\
  model_of (fst (cloneV h d)) (snd (cloneV h d)) = model_of h d /\
  model_of (fst (cloneV h d)) d = model_of h d.
Proof.
  intros [Harr Hlen]. unfold cloneV. cbn [fst snd].
  assert (Hb : backing (h ++ [elems h (vfields d)]) (vfields d)
               = backing h (vfields d))
    by (unfold backing; now apply app_nth1).
  assert (Hc : backing (h ++ [elems h (vfields d)])
                       (mkSlice (length h) (len (vfields d)))
               = elems h (vfields d))
    by (unfold backing; apply nth_length_app).
  split; [split; [|split]|split].
  - unfold wf, cap. rewrite Hb.
    split; [rewrite length_app; simpl; lia | exact Hlen].
  - unfold wf, cap. cbn [vfields arr len]. rewrite Hc, length_app.
    split; [simpl; lia|]. now rewrite elems_length.
  - cbn [vfields arr]. lia.
  - unfold model_of. cbn [vhead vfields vcolumns]. unfold elems at 1.
    cbn [len]. rewrite Hc. f_equal.
    rewrite <- (elems_length h (vfields d) Hlen) at 1. apply firstn_all.
  - unfold model_of. f_equal.
    change (firstn (len (vfields d))
              (backing (h ++ [elems h (vfields d)]) (vfields d))
            = firstn (len (vfields d)) (backing h (vfields d))).
    now rewrite Hb.
Qed.

(** X17.  The edits on a model value in memory do what the edits on the
    model do: after any series of [addConstraint], [removeConstraint],
    [removeColumn] and [renameTable], whatever capacity the backing array
    had and whatever [append] allocates, the model value stands for the
    model that the same series of edits gives, and the flags returned by
    the two removals are the same. *)
Theorem edits_in_memory_agree (h : heap) (d : ddlVar) (es : list edit)
    (name : str) :
  wf h d ->
  model_of (fst (applyEditsV spare h d es)) (snd (applyEditsV spare h d es))
  = applyEdits (model_of h d) es /\
  snd (removeConstraintV h d name) = snd (removeConstraint (model_of h d) name) /\
  snd (removeColumnV h d name) = snd (removeColumn (model_of h d) name).
Proof.
  intros Hwf. split; [|split].
  - destruct (applyEditsV_steps es h d Hwf) as (h' & d' & -> & M & _). exact M.
  - unfold removeConstraintV, removeConstraint, model_of. cbn [fields].
    destruct (first_split (isConstraint name) (elems h (vfields d)))
      as [Hall|(before & f & after & E & Hb & Hf)].
    + rewrite (firstIndex_missing _ _ 0 Hall).
      now rewrite (removeConstraint_loop_missing name _ []
                     (not_constraint_named _ _ Hall)).
    + rewrite E, (firstIndex_found _ before f after 0 Hb Hf).
      rewrite (removeConstraint_loop_found name before [] f after
                 (not_constraint_named _ _ Hb)
                 (proj1 (isConstraint_spec _ _) Hf)).
      now destruct (deleteAt _ _ _).
  - unfold removeColumnV, removeColumn, model_of. cbn [fields].
    destruct (first_split (isColumn name) (elems h (vfields d)))
      as [Hall|(before & f & after & E & Hb & Hf)].
    + rewrite (firstIndex_missing _ _ 0 Hall).
      now rewrite (removeColumn_loop_missing name _ []
                     (not_names_column _ _ Hall)).
    + rewrite E, (firstIndex_found _ before f after 0 Hb Hf).
      rewrite (removeColumn_loop_found name before [] f after
                 (not_names_column _ _ Hb)
                 (proj1 (isColumn_spec _ _) Hf)).
      now destruct (deleteAt _ _ _).
Qed.

(** X18.  A clone is independent of its original.  Right after [clone]
    the two stand for the same model; any series of edits on the clone
    leaves the model of the original as it was, and any series of edits
    on the original leaves the model of the clone as it was. *)
Theorem clone_is_independent (h : heap) (d : ddlVar) (es : list edit) :
  wf h d ->
  model_of (fst (cloneV h d)) (snd (cloneV h d)) = model_of h d /\
  (model_of (fst (applyEditsV spare (fst (cloneV h d)) (snd (cloneV h d)) es)) d
   = model_of h d /\
   model_of (fst (applyEditsV spare (fst (cloneV h d)) (snd (cloneV h d)) es))
            (snd (applyEditsV spare (fst (cloneV h d)) (snd (cloneV h d)) es))
   = applyEdits (model_of h d) es) /\
  (model_of (fst (applyEditsV spare (fst (cloneV h d)) d es)) (snd (cloneV h d))
   = model_of h d /\
   model_of (fst (applyEditsV spare (fst (cloneV h d)) d es))
            (snd (applyEditsV spare (fst (cloneV h d)) d es))
   = applyEdits (model_of h d) es).
Proof.
  intros Hwf. destruct (cloneV_Separate h d Hwf) as (Hsep & Mc & Md).
  set (h1 := fst (cloneV h d)) in *. set (c := snd (cloneV h d)) in *.
  split; [exact Mc|]. split.
  - destruct (applyEditsV_steps es h1 c (proj1 (proj2 Hsep)))
      as (h2 & c2 & -> & M & F). cbn [fst snd].
    destruct (Separate_step h1 d c h2 c2 Hsep F) as [_ Hd].
    split; [now rewrite Hd | now rewrite M, Mc].
  - destruct (applyEditsV_steps es h1 d (proj1 Hsep))
      as (h2 & d2 & -> & M & F). cbn [fst snd].
    assert (Hsep' : Separate h1 c d).
    { destruct Hsep as (A & B & C). split; [exact B | split; [exact A | congruence]]. }
    destruct (Separate_step h1 c d h2 d2 Hsep' F) as [_ Hc].
    split; [now rewrite Hc | now rewrite M, Md].
Qed.

(** X19.  A copy of the model value that is not a clone shares the backing
    array, and [removeColumn] shifts that array in place: after a removal
    through one value, the other value, which still has the old length,
    shows the fields without the removed one followed by the old last
    field once more. *)
Theorem shared_copy_sees_removal (h : heap) (d : ddlVar) (name : str)
    (before : list str) (f : str) (after : list str) :
  wf h d ->
  elems h (vfields d) = before ++ f :: after ->
  Forall (fun x => ~ NamesColumn name x) before ->
  NamesColumn name f ->
  fields (model_of (fst (fst (removeColumnV h d name)))
                   (snd (fst (removeColumnV h d name))))
  = before ++ after /\
  fields (model_of (fst (fst (removeColumnV h d name))) d)
  = before ++ after ++ [last (f :: after) []].
Proof.
  intros Hwf E Hb Hf. unfold removeColumnV.
  assert (Hb' : Forall (fun x => isColumn name x = false) before).
  { eapply Forall_impl; [|exact Hb]. intros x Hx.
    apply not_true_false. now rewrite isColumn_spec. }
  rewrite E, (firstIndex_found _ before f after 0 Hb'
                (proj2 (isColumn_spec _ _) Hf)).
  cbn [Nat.add].
  destruct (deleteAt_step h d before f after Hwf E)
    as (h' & s' & -> & Es & _ & Eold).
  cbn [fst snd model_of fields vfields]. split; assumption.
Qed.

End Clones.

(* ================================================================= *)
(** ** When the driver returns *)

Section Returns.
Context {U : GoUnicode}.
Local Open Scope char_scope.
Import strings.

Lemma skipWhile_never_fails cond : forall fuel l e,
  skipWhile cond fuel l <> Err e.
Proof.
  induction fuel as [|fuel IH]; intros l e; [discriminate|].
  cbn [skipWhile]. destruct (cond (peek l)); [apply IH | discriminate].
Qed.

Lemma parseString_loop_settled : forall f k q acc l,
  parseString_loop f q acc l <> OutOfFuel ->
  parseString_loop (f + k) q acc l = parseString_loop f q acc l.
Proof.
  induction f as [|f IH]; intros k q acc l H; [now elim H|].
  cbn [Nat.add parseString_loop] in *. destruct (next l) as [c l1].
  destruct (Ascii.eqb c zero); [reflexivity|].
  destruct (Ascii.eqb c q); [reflexivity | now apply IH].
Qed.

Lemma parseTableName_settled f k l :
  parseTableName f l <> OutOfFuel ->
  parseTableName (f + k) l = parseTableName f l.
Proof.
  unfold parseTableName, parseString. intros H.
  destruct (skipWhile notQuote f l) as [l1|e|] eqn:Hs.
  - rewrite (skipWhile_mono _ _ k _ _ Hs). cbn [bind] in *.
    destruct (next l1) as [q l2]. now apply parseString_loop_settled.
  - now elim (skipWhile_never_fails _ _ _ _ Hs).
  - now elim H.
Qed.

Lemma notOpen_all rest :
  ~ In "(" rest -> forallb notOpen rest = true.
Proof.
  intros H. apply forallb_forall. intros c Hc. unfold notOpen.
  destruct (Ascii.eqb_spec c "(") as [->|]; [now elim H | reflexivity].
Qed.

(** X20.  When [parseDDL] returns on a [CREATE TABLE] statement that holds
    a quote character.  If the first quote character does not recur
    before the end or a NUL byte, the result is the unterminated-string
    error.  If it recurs and an opening parenthesis follows the closing
    quote, [parseDDL] returns, a model or an error.  If it recurs and no
    opening parenthesis follows, [parseDDL] does not return, whatever the
    fuel. *)
Theorem parseDDL_returns_or_hangs (s a : str) (q : ascii) (body : str)
    (fuel : nat) :
  HasPrefix (ToUpper s) createTablePrefix = true ->
  s = a ++ q :: body ->
  forallb notQuote a = true ->
  notQuote q = false ->
  length s < fuel ->
  (existsb (fun c => Ascii.eqb c q) (upTo zero body) = false ->
   parseDDL fuel [s] = Err ErrUnterminatedString) /\
  (existsb (fun c => Ascii.eqb c q) (upTo zero body) = true ->
   In "(" (skipn (S (length (upTo q body))) body) ->
   parseDDL fuel [s] <> OutOfFuel) /\
  (existsb (fun c => Ascii.eqb c q) (upTo zero body) = true ->
   ~ In "(" (skipn (S (length (upTo q body))) body) ->
   forall fuel', parseDDL fuel' [s] = OutOfFuel).
Proof.
  intros Hpre Es Ha Hq Hfuel.
  assert (Hrem : remaining (newLexer s) = a ++ q :: body) by exact Es.
  assert (Hname : forall f, length s < f ->
            parseTableName f (newLexer s)
            = if existsb (fun c => Ascii.eqb c q) (upTo zero body)
              then Ok (written (upTo q body) [],
                       advance (newLexer s)
                         (length a + S (S (length (upTo q body)))))
              else Err ErrUnterminatedString).
  { intros f Hf. now apply parseTableName_found. }
  set (l1 := advance (newLexer s) (length a + S (S (length (upTo q body))))) in *.
  assert (Hrem1 : remaining l1 = skipn (S (length (upTo q body))) body).
  { unfold l1. rewrite remaining_advance, Hrem. now rewrite skipn_length_app. }
  assert (Hlen1 : length (remaining l1) < fuel).
  { rewrite Hrem1, length_skipn. rewrite Es, length_app in Hfuel.
    simpl in Hfuel. lia. }
  unfold parseDDL. cbn [parseDDL_loop]. rewrite Hpre.
  split; [|split].
  - intros Hno. rewrite (Hname fuel Hfuel), Hno. reflexivity.
  - intros Hyes Hopen. rewrite (Hname fuel Hfuel), Hyes. cbn [bind].
    rewrite <- Hrem1 in Hopen.
    destruct (bodyOf_split _ Hopen) as (b & Eb & Hb).
    assert (Hlenb : length (remaining l1)
                    = length b + S (length (bodyOf (remaining l1))))
      by (rewrite Eb at 1; now rewrite length_app).
    unfold parseTableFields.
    rewrite (skipWhile_found notOpen b l1 "(" _ fuel Eb Hb eq_refl) by lia.
    cbn [bind].
    assert (Hrem2 : remaining (advance l1 (length b))
                    = "(" :: bodyOf (remaining l1)).
    { rewrite remaining_advance. rewrite Eb at 1.
      now rewrite skipn_app, skipn_all, Nat.sub_diag. }
    destruct (next_cons _ _ _ Hrem2) as [-> Hrem3]. cbn [snd].
    destruct (loop_spec _ _ 0 [] [] fuel Hrem3 ltac:(lia)) as [Hiff Hok].
    destruct (staysOpen 1 (upTo zero (bodyOf (remaining l1)))) eqn:Hst.
    + apply staysOpen_spec in Hst. apply Hiff in Hst. rewrite Hst. discriminate.
    + destruct Hok as (fs & l2 & ->).
      * intros H. change (Z.of_nat 1) with 1%Z in H.
        apply staysOpen_spec in H. congruence.
      * discriminate.
  - intros Hyes Hopen fuel'.
    destruct (parseTableName fuel' (newLexer s)) as [[n l1']|e|] eqn:Hn;
      [| |reflexivity].
    + assert (Hs : parseTableName fuel' (newLexer s) <> OutOfFuel) by congruence.
      apply (parseTableName_settled _ (S (length s))) in Hs.
      rewrite (Hname (fuel' + S (length s)) ltac:(lia)), Hyes, Hn in Hs.
      inversion Hs; subst n l1'. cbn [bind]. unfold parseTableFields.
      rewrite (skipWhile_stuck notOpen eq_refl fuel' l1); [reflexivity|].
      rewrite Hrem1. now apply notOpen_all.
    + assert (Hs : parseTableName fuel' (newLexer s) <> OutOfFuel) by congruence.
      apply (parseTableName_settled _ (S (length s))) in Hs.
      rewrite (Hname (fuel' + S (length s)) ltac:(lia)), Hyes, Hn in Hs.
      discriminate.
Qed.



End Returns.

(* ================================================================= *)
(** ** The properties above on the samples *)

Lemma removeConstraint_first_match_witness :
  removeConstraint (U := bytewise) constraint_sample (bytes "uq_name")
  = (mkDdl (bytes "CREATE TABLE `users`") [bytes "`name` TEXT"] [], true) /\
  removeConstraint (U := bytewise) constraint_sample (bytes "uq_other")
  = (constraint_sample, false).
Proof.
  split.
  - apply (proj1 (removeConstraint_first_match (U := bytewise) constraint_sample
                    (bytes "uq_name"))
             [bytes "`name` TEXT"]
             (bytes "CONSTRAINT `uq_name` UNIQUE(`name`)") []).
    + reflexivity.
    + repeat constructor. refute_by_evaluation.
    + split; vm_compute; reflexivity.
  - apply (proj2 (removeConstraint_first_match (U := bytewise) constraint_sample
                    (bytes "uq_other"))).
    repeat constructor; refute_by_evaluation.
Defined.

Lemma addConstraint_then_hasConstraint_witness :
  hasConstraint (U := bytewise)
    (addConstraint (U := bytewise) constraint_sample (bytes "uq_other")
       (bytes "CONSTRAINT `uq_other` UNIQUE(`id`)"))
    (bytes "uq_other") = true /\
  addConstraint (U := bytewise)
    (addConstraint (U := bytewise) constraint_sample (bytes "uq_other")
       (bytes "CONSTRAINT `uq_other` UNIQUE(`id`)"))
    (bytes "uq_other") (bytes "CONSTRAINT `uq_other` UNIQUE(`id`)")
  = addConstraint (U := bytewise) constraint_sample (bytes "uq_other")
      (bytes "CONSTRAINT `uq_other` UNIQUE(`id`)").
Proof.
  apply (addConstraint_then_hasConstraint (U := bytewise)).
  split; vm_compute; reflexivity.
Defined.

Lemma removeConstraint_undoes_addConstraint_witness :
  removeConstraint (U := bytewise)
    (addConstraint (U := bytewise) columns_sample (bytes "uq_id")
       (bytes "CONSTRAINT `uq_id` UNIQUE(`id`)"))
    (bytes "uq_id")
  = (columns_sample, true).
Proof.
  apply (removeConstraint_undoes_addConstraint (U := bytewise)).
  - vm_compute. reflexivity.
  - split; vm_compute; reflexivity.
Defined.

Lemma parseString_result_witness :
  parseString 40 (newLexer (bytes "`users` (`id` INTEGER)"))
  = Ok (bytes "users", advance (newLexer (bytes "`users` (`id` INTEGER)")) 7) /\
  parseString 40 (newLexer (bytes "`users"))
  = Err ErrUnterminatedString /\
  parseString 40 (newLexer []) = Err ErrUnterminatedString.
Proof.
  split; [|split].
  - pose proof (proj1 (parseString_result
                         (newLexer (bytes "`users` (`id` INTEGER)")) 40)
                  "`"%char (bytes "users` (`id` INTEGER)") eq_refl
                  ltac:(vm_compute; lia)) as H.
    vm_compute in H. vm_compute. exact H.
  - pose proof (proj1 (parseString_result (newLexer (bytes "`users")) 40)
                  "`"%char (bytes "users") eq_refl
                  ltac:(vm_compute; lia)) as H.
    vm_compute in H. vm_compute. exact H.
  - apply (proj2 (parseString_result (newLexer []) 40) eq_refl).
    lia.
Defined.

Lemma parseTableName_result_witness :
  parseTableName 40 (newLexer (bytes "CREATE TABLE `users` (`id` INTEGER)"))
  = Ok (bytes "users",
        advance (newLexer (bytes "CREATE TABLE `users` (`id` INTEGER)")) 20).
Proof.
  pose proof (parseTableName_result
                (newLexer (bytes "CREATE TABLE `users` (`id` INTEGER)"))
                (bytes "CREATE TABLE ") "`"%char (bytes "users` (`id` INTEGER)") 40
                eq_refl eq_refl eq_refl ltac:(vm_compute; lia)) as H.
  vm_compute in H. vm_compute. exact H.
Defined.

Lemma parseIdentifier_result_witness :
  parseIdentifier 20 (newLexer (bytes "CREATE TABLE"))
  = Ok (bytes "CREATE", advance (newLexer (bytes "CREATE TABLE")) 6).
Proof.
  pose proof (proj1 (parseIdentifier_result (newLexer (bytes "CREATE TABLE")) 20
                       ltac:(vm_compute; lia))) as H.
  vm_compute in H. vm_compute. exact H.
Defined.

Lemma cursor_only_moves_forward_witness :
  Later (newLexer (bytes "CREATE TABLE `users` (`id` INTEGER)"))
        (advance (newLexer (bytes "CREATE TABLE `users` (`id` INTEGER)")) 20).
Proof.
  apply (proj1 (proj2 (proj2
           (cursor_only_moves_forward (U := bytewise) 40
              (newLexer (bytes "CREATE TABLE `users` (`id` INTEGER)"))
              (advance (newLexer (bytes "CREATE TABLE `users` (`id` INTEGER)")) 20))))
           (bytes "users")).
  vm_compute. reflexivity.
Defined.

Lemma returned_fields_witness :
  Forall (fun f => depth f = 0%Z /\ ~ In zero f /\
                   isASCII f = true /\ strings.TrimSpace (U := bytewise) f = f)
         nested_fields.
Proof.
  eapply (returned_fields_are_balanced_and_trimmed (U := bytewise) 200
            (newLexer nested_statement)).
  - vm_compute. reflexivity.
  - vm_compute. reflexivity.
Defined.

Lemma parseDDL_skips_index_statements_witness :
  parseDDL (U := bytewise) 10
    [bytes "CREATE INDEX `i` ON `a`(`x`)"; bytes "create index `j` on `a`(`y`)"]
  = Ok (mkDdl [] [] []) /\
  compile (mkDdl [] [] []) = [].
Proof.
  apply (proj2 (parseDDL_skips_index_statements (U := bytewise) 10
                  [bytes "CREATE INDEX `i` ON `a`(`x`)";
                   bytes "create index `j` on `a`(`y`)"])).
  vm_compute. reflexivity.
Defined.

Lemma last_table_statement_wins_witness :
  parseDDL (U := bytewise) 60 two_tables
  = parseDDL (U := bytewise) 60 [bytes "CREATE TABLE `b` (`y` TEXT, `z` TEXT)"].
Proof.
  apply (last_table_statement_wins (U := bytewise) 60
           [bytes "CREATE TABLE `a` (`x` INTEGER)";
            bytes "CREATE INDEX `i` ON `a`(`x`)"]
           (bytes "CREATE TABLE `b` (`y` TEXT, `z` TEXT)")
           (mkDdl (bytes "CREATE TABLE `a`") [bytes "`x` INTEGER"]
              (parseColumns (U := bytewise) [bytes "`x` INTEGER"]))).
  - vm_compute. reflexivity.
  - vm_compute. reflexivity.
Defined.

Lemma parseDDL_stops_at_first_error_witness :
  parseDDL (U := bytewise) 60
    [bytes "CREATE TABLE `a` (`x` INTEGER)"; bytes "DROP TABLE `a`";
     bytes "CREATE TABLE `b` (`y` TEXT)"]
  = Err ErrInvalidDDL.
Proof.
  apply (proj2 (parseDDL_stops_at_first_error (U := bytewise) 60
                  [bytes "CREATE TABLE `a` (`x` INTEGER)"]
                  [bytes "CREATE TABLE `b` (`y` TEXT)"])
           (mkDdl (bytes "CREATE TABLE `a`") [bytes "`x` INTEGER"]
              (parseColumns (U := bytewise) [bytes "`x` INTEGER"]))
           (bytes "DROP TABLE `a`")).
  - vm_compute. reflexivity.
  - vm_compute. reflexivity.
  - vm_compute. reflexivity.
Defined.

Lemma descriptor_name_is_unquoted_witness :
  exists column tok more w1 w2,
    parseColumn (U := bytewise) (bytes "'id` INTEGER NOT NULL") = Some column /\
    sql.String_ (NameValue column) = bytes "id" /\
    strings.Fields (U := bytewise)
      (strings.TrimSpace (U := bytewise) (bytes "'id` INTEGER NOT NULL"))
    = tok :: more /\
    tok = w1 ++ sql.String_ (NameValue column) ++ w2 /\
    forallb (strings.inCutset quoteChars) w1 = true /\
    forallb (strings.inCutset quoteChars) w2 = true.
Proof.
  destruct (parseColumn (U := bytewise) (bytes "'id` INTEGER NOT NULL"))
    as [column|] eqn:Hc; [|vm_compute in Hc; discriminate Hc].
  destruct (descriptor_name_is_unquoted (U := bytewise) _ column Hc)
    as (tok & more & w1 & w2 & H1 & H2 & H3 & H4 & _).
  exists column, tok, more, w1, w2.
  split; [reflexivity|]. split; [|auto].
  vm_compute in Hc. inversion Hc. reflexivity.
Defined.

Lemma getColumns_lists_descriptor_names_witness :
  getColumns (U := bytewise) constraint_sample
  = map (fun column => backquoted (sql.String_ (NameValue column)))
        (parseColumns (U := bytewise) (fields constraint_sample)).
Proof.
  apply (proj2 (getColumns_lists_descriptor_names (U := bytewise))).
  apply Forall_cons; [split|apply Forall_cons; [split|apply Forall_nil]].
  - vm_compute. reflexivity.
  - right. exists (bytes "`name`"), (bytes "TEXT"), []. vm_compute. reflexivity.
  - vm_compute. reflexivity.
  - left. vm_compute. reflexivity.
Defined.

Lemma two_token_column_witness :
  exists column,
    parseColumn (U := bytewise) (bytes "`id` INTEGER") = Some column /\
    NullableValue column = sql.mkNullBool true true /\
    UniqueValue column = sql.mkNullBool false true /\
    PrimaryKeyValue column = sql.mkNullBool false true /\
    DefaultValueValue column = sql.mkNullString [] false /\
    ColumnTypeValue column = sql.mkNullString (bytes "INTEGER") true.
Proof.
  apply (two_token_column_has_default_attributes (U := bytewise)
           (bytes "`id` INTEGER") (bytes "`id`") (bytes "INTEGER")).
  - vm_compute. reflexivity.
  - vm_compute. reflexivity.
Defined.

Lemma edits_in_memory_agree_witness :
  model_of
    (fst (applyEditsV (U := bytewise) no_spare memory_sample value_sample
            edits_sample))
    (snd (applyEditsV (U := bytewise) no_spare memory_sample value_sample
            edits_sample))
  = mkDdl (bytes "CREATE TABLE `accounts`")
      [bytes "`name` TEXT"; bytes "CONSTRAINT `uq_id` UNIQUE(`id`,`name`)";
       bytes "CONSTRAINT `ck` CHECK (`name` <> '')"] [].
Proof.
  rewrite (proj1 (edits_in_memory_agree (U := bytewise) no_spare memory_sample
                    value_sample edits_sample []
                    ltac:(split; vm_compute; lia))).
  vm_compute. reflexivity.
Defined.

Lemma clone_is_independent_witness :
  model_of
    (fst (applyEditsV (U := bytewise) no_spare
            (fst (cloneV memory_sample value_sample))
            (snd (cloneV memory_sample value_sample)) edits_sample))
    value_sample
  = model_of memory_sample value_sample.
Proof.
  apply (proj1 (proj1 (proj2 (clone_is_independent (U := bytewise) no_spare
                                memory_sample value_sample edits_sample
                                ltac:(split; vm_compute; lia))))).
Defined.

Lemma shared_copy_sees_removal_witness :
  fields (model_of
            (fst (fst (removeColumnV (U := bytewise) memory_sample value_sample
                         (bytes "id"))))
            value_sample)
  = [bytes "`name` TEXT"; bytes "CONSTRAINT `uq_name` UNIQUE(`name`)";
     bytes "CONSTRAINT `uq_name` UNIQUE(`name`)"].
Proof.
  apply (proj2 (shared_copy_sees_removal (U := bytewise) memory_sample
                  value_sample (bytes "id") [] (bytes "`id` INTEGER")
                  [bytes "`name` TEXT";
                   bytes "CONSTRAINT `uq_name` UNIQUE(`name`)"]
                  ltac:(split; vm_compute; lia) eq_refl
                  ltac:(constructor)
                  ltac:(exists (bytes "`id`"), [bytes "INTEGER"];
                        split; vm_compute; reflexivity))).
Defined.

Lemma parseDDL_returns_or_hangs_witness :
  parseDDL (U := bytewise) 40 [bytes "CREATE TABLE `users"]
  = Err ErrUnterminatedString /\
  parseDDL (U := bytewise) 1000 [bytes "CREATE TABLE `users` AS SELECT 1"]
  = OutOfFuel.
Proof.
  split.
  - apply (proj1 (parseDDL_returns_or_hangs (U := bytewise)
                    (bytes "CREATE TABLE `users") (bytes "CREATE TABLE ")
                    "`"%char (bytes "users") 40
                    ltac:(vm_compute; reflexivity) eq_refl eq_refl eq_refl
                    ltac:(vm_compute; lia))).
    vm_compute. reflexivity.
  - apply (proj2 (proj2 (parseDDL_returns_or_hangs (U := bytewise)
                    (bytes "CREATE TABLE `users` AS SELECT 1")
                    (bytes "CREATE TABLE ")
                    "`"%char (bytes "users` AS SELECT 1") 40
                    ltac:(vm_compute; reflexivity) eq_refl eq_refl eq_refl
                    ltac:(vm_compute; lia)))).
    + vm_compute. reflexivity.
    + vm_compute. intros H.
      repeat (destruct H as [H|H]; [discriminate H|]). exact H.
Defined.

